(** * MACI domain objects (domainobjs/ts/index.ts)

    A shallow embedding of the key, message, state-leaf and command classes
    of the MACI domain-object package, together with the properties of
    their packing, serialisation and construction checks.

    Conventions
    - a JavaScript [BigInt] is an unbounded signed integer: [Z];
    - an array of BigInt is a [list Z], indexed with [nth_error]; an index
      that is not there ([undefined] in JavaScript) is [None];
    - a call that may throw (a failed [assert], a [SyntaxError] of
      [BigInt(...)], a [TypeError]) returns [option]; [None] is the throw;
    - a string is a [string], one character per UTF-16 code unit;
    - a Node [Buffer] is a [list byte];
    - what the file imports from [maci-crypto], and the JSON and base64url
      codecs, are operations of the interfaces [MaciCrypto] and [Codecs]. *)

From Stdlib Require Import ZArith List String Ascii Bool Lia.
From Stdlib.Strings Require Import Byte.
Import ListNotations.

Local Open Scope string_scope.
Local Open Scope Z_scope.

(** ** Throwing computations *)

Definition bind {A B : Type} (m : option A) (k : A -> option B) : option B :=
  match m with
  | Some a => k a
  | None => None
  end.

Notation "'let*' x ':=' m 'in' k" := (bind m (fun x => k))
  (at level 10, x name, m at level 100, k at level 200).

(** [assert(b)] of Node's [assert] module. *)
Definition assert (b : bool) : option unit := if b then Some tt else None.

(** ** JavaScript strings *)

Module JsString.

(** [s.slice(n)] for a non-negative [n]: the string without its first
    [n] code units (empty when [n] is past the end). *)
Fixpoint slice (n : nat) (s : string) : string :=
  match n, s with
  | O, _ => s
  | S _, EmptyString => EmptyString
  | S n', String _ s' => slice n' s'
  end.

(** [s.startsWith(p)]. *)
Definition startsWith (s p : string) : bool := String.prefix p s.

(** [Buffer.from(s, 'utf8')] on code units below 256: one byte below
    128, two bytes from there on. *)
Definition utf8_unit (c : ascii) : list byte :=
  let n := N_of_ascii c in
  if (n <? 128)%N then [byte_of_ascii c]
  else [byte_of_ascii (ascii_of_N (192 + n / 64));
        byte_of_ascii (ascii_of_N (128 + n mod 64))].

Definition Buffer_from_utf8 (s : string) : list byte :=
  flat_map utf8_unit (list_ascii_of_string s).

End JsString.

(** ** Hexadecimal digits, [BigInt] and [Buffer] conversions *)

Module Hex.

(** The digit character of a value in 0..15, lower case as
    [toString(16)] and [Buffer.toString('hex')] print it. *)
Definition digit (d : Z) : ascii :=
  match String.get (Z.to_nat d) "0123456789abcdef" with
  | Some c => c
  | None => "f"%char
  end.

(** The value of a hexadecimal digit, either case, from its code unit. *)
Definition value (c : ascii) : option Z :=
  let n := Z.of_N (N_of_ascii c) in
  if (48 <=? n) && (n <=? 57) then Some (n - 48)
  else if (97 <=? n) && (n <=? 102) then Some (n - 87)
  else if (65 <=? n) && (n <=? 70) then Some (n - 55)
  else None.

(** Digits of a non-negative integer, least significant first; [fuel]
    bounds the number of digits. *)
Fixpoint digits_le (fuel : nat) (n : Z) : list Z :=
  match fuel with
  | O => []
  | S fuel' => if n <=? 0 then [] else (n mod 16) :: digits_le fuel' (n / 16)
  end.

(** The number a list of digits denotes, least significant first. *)
Fixpoint value_le (ds : list Z) : Z :=
  match ds with
  | [] => 0
  | d :: ds' => d + 16 * value_le ds'
  end.

(** Enough fuel for [n]: one more than its bit length. *)
Definition fuel_for (n : Z) : nat := S (Z.to_nat (Z.log2 n)).

(** [n.toString(16)] on a BigInt: a minus sign for a negative number,
    ["0"] for zero, no leading zeros. *)
Definition toString16 (n : Z) : string :=
  if n =? 0 then "0"
  else if n <? 0 then
    String "-" (string_of_list_ascii
                  (map digit (rev (digits_le (fuel_for (- n)) (- n)))))
  else string_of_list_ascii (map digit (rev (digits_le (fuel_for n) n))).

(** White space that [StringToBigInt] trims, among the code units
    below 256: TAB, LF, VT, FF, CR, SP and NBSP. *)
Definition isWhiteSpace (c : ascii) : bool :=
  existsb (N.eqb (N_of_ascii c)) [9; 10; 11; 12; 13; 32; 160]%N.

Fixpoint dropWhile {A} (f : A -> bool) (l : list A) : list A :=
  match l with
  | [] => []
  | a :: l' => if f a then dropWhile f l' else l
  end.

Definition trimEnd (l : list ascii) : list ascii :=
  rev (dropWhile isWhiteSpace (rev l)).

(** Most-significant-first accumulation of hexadecimal digits. *)
Fixpoint parse_digits (l : list ascii) (acc : Z) : option Z :=
  match l with
  | [] => Some acc
  | c :: l' =>
      match value c with
      | Some d => parse_digits l' (acc * 16 + d)
      | None => None
      end
  end.

(** [BigInt('0x' + x)]: the literal is trimmed of white space (only the
    end of [x] can carry some, the text starts with [0x]), then needs at
    least one hexadecimal digit and nothing else; a [SyntaxError]
    otherwise. *)
Definition BigInt_0x (x : string) : option Z :=
  match trimEnd (list_ascii_of_string x) with
  | [] => None
  | l => parse_digits l 0
  end.

(** [buf.toString('hex')]: two digits per byte. *)
Fixpoint Buffer_toString_hex (buf : list byte) : string :=
  match buf with
  | [] => EmptyString
  | b :: buf' =>
      let n := Z.of_N (Byte.to_N b) in
      String (digit (n / 16)) (String (digit (n mod 16)) (Buffer_toString_hex buf'))
  end.

(** [Buffer.from(s, 'hex')]: decodes pairs of digits and stops at the
    first pair that is not hexadecimal; a trailing single character is
    dropped. *)
Fixpoint Buffer_from_hex (s : string) : list byte :=
  match s with
  | String c1 (String c2 s') =>
      match value c1, value c2 with
      | Some h, Some l =>
          match Byte.of_N (Z.to_N (h * 16 + l)) with
          | Some b => b :: Buffer_from_hex s'
          | None => []
          end
      | _, _ => []
      end
  | _ => []
  end.

End Hex.

(** ** JavaScript values met when an object is indexed *)

Inductive JsValue :=
| JsUndefined
| JsBigInt (z : Z)
| JsArray (l : list Z)
| JsFunction (name : string).

(** [a == b]. Two [undefined] are equal, two BigInt are equal when their
    values are; arrays and functions are compared by identity, and the
    arrays and closures of two reads are different objects. *)
Definition looseEq (a b : JsValue) : bool :=
  match a, b with
  | JsUndefined, JsUndefined => true
  | JsBigInt x, JsBigInt y => x =? y
  | _, _ => false
  end.

(** [x < y] where [x] may be [undefined]: [undefined < y] is [false]. *)
Definition js_lt (x : option Z) (y : Z) : bool :=
  match x with
  | Some v => v <? y
  | None => false
  end.

(** ** The interfaces the module imports *)

Module Signature.
(** Modelled from the spec: the [Signature] type of [maci-crypto], whose
    declaration is not in this package; a curve point of two coordinates
    and a scalar. *)
Record t := mk { R8 : Z * Z; S : Z }.
End Signature.

Module Ciphertext.
(** The [Ciphertext] of [maci-crypto], with the two fields the code
    reads: what [encrypt] returns and, a [Message] having the same two
    fields, what [decrypt] is given. *)
Record t := mk { iv : Z; data : list Z }.
End Ciphertext.

Module MaciCrypto.
(** The names imported from [maci-crypto] that the modelled methods call.
    Their code is not in this package: they are operations of an
    interface, and what a property needs of them is a hypothesis of its
    statement. [unpackPubKey] may throw. *)
Class t := {
  SNARK_FIELD_SIZE : Z;
  EcdhSharedKey : Type;
  hash3 : list Z -> Z;
  hash4 : list Z -> Z;
  hash5 : list Z -> Z;
  sign : Z -> Z -> Signature.t;
  encrypt : list Z -> EcdhSharedKey -> Ciphertext.t;
  decrypt : Ciphertext.t -> EcdhSharedKey -> list Z;
  packPubKey : list Z -> list byte;
  unpackPubKey : list byte -> option (list Z)
}.
End MaciCrypto.

(** The part of a JSON value that [StateLeaf] writes and reads: strings
    and objects. *)
#[local] Unset Elimination Schemes.
Inductive Json :=
| JString (s : string)
| JObject (fields : list (string * Json)).
#[local] Set Elimination Schemes.

(** [base64url(buf)], [base64url.decode(s)], [JSON.stringify(j, null, 0)]
    and [JSON.parse(s)]; the last may throw. *)
Class Codecs := {
  base64url : list byte -> string;
  base64url_decode : string -> string;
  JSON_stringify : Json -> string;
  JSON_parse : string -> option Json
}.

(** The codecs undo each other on the text of the value [j]:
    [JSON.parse(JSON.stringify(j))] is [j] again, and
    [base64url.decode(base64url(Buffer.from(text, 'utf8')))] is the text
    again. *)
Definition codecs_invert_on {codecs : Codecs} (j : Json) : Prop :=
  JSON_parse (JSON_stringify j) = Some j /\
  base64url_decode (base64url (JsString.Buffer_from_utf8 (JSON_stringify j)))
    = JSON_stringify j.

(** [j.name] when it is a string; [None] stands for anything else
    ([undefined], an object), on which the callers below throw. *)
Definition Json_get_string (j : Json) (name : string) : option string :=
  match j with
  | JObject fields =>
      match find (fun kv => String.eqb (fst kv) name) fields with
      | Some (_, JString s) => Some s
      | _ => None
      end
  | JString _ => None
  end.

(** ** class PrivKey *)

Module PrivKey.

Record t := mk { rawPrivKey : Z }.

Definition SERIALIZED_PRIV_KEY_PREFIX : string := "macisk.".

Definition serialize (this : t) : string :=
  SERIALIZED_PRIV_KEY_PREFIX ++ Hex.toString16 (rawPrivKey this).

(** Throws exactly when [BigInt('0x' + x)] does. *)
Definition unserialize (s : string) : option t :=
  let x := JsString.slice (String.length SERIALIZED_PRIV_KEY_PREFIX) s in
  let* v := Hex.BigInt_0x x in
  Some (mk v).

Section WithCrypto.
Context {crypto : MaciCrypto.t}.

(** [validValue] starts [false] and the [catch] leaves it so. *)
Definition isValidSerializedPrivKey (s : string) : bool :=
  let correctPrefix := JsString.startsWith s SERIALIZED_PRIV_KEY_PREFIX in
  let x := JsString.slice (String.length SERIALIZED_PRIV_KEY_PREFIX) s in
  let validValue :=
    match Hex.BigInt_0x x with
    | Some value => value <? MaciCrypto.SNARK_FIELD_SIZE
    | None => false
    end in
  correctPrefix && validValue.

End WithCrypto.

End PrivKey.

(** ** class PubKey *)

Module PubKey.

Record t := mk { rawPubKey : list Z }.

Definition SERIALIZED_PUB_KEY_PREFIX : string := "macipk.".

(** The properties an instance carries: the field and the arrow
    functions assigned in the class body. *)
Definition instanceFunctions : list string :=
  ["copy"; "asContractParam"; "asCircuitInputs"; "asArray"; "serialize"].

(** [this[name]] on a [PubKey] object, among its own properties; an
    index [i] reads the property named by the decimal text of [i], and
    neither the instance nor its prototypes have one. *)
Definition get (this : t) (name : string) : JsValue :=
  if String.eqb name "rawPubKey" then JsArray (rawPubKey this)
  else if existsb (String.eqb name) instanceFunctions then JsFunction name
  else JsUndefined.

(** [[this.rawPubKey[0], this.rawPubKey[1]]]; a coordinate that is not
    there is reported as a failure (construction rules it out). *)
Definition asArray (this : t) : option (list Z) :=
  let* x := nth_error (rawPubKey this) 0 in
  let* y := nth_error (rawPubKey this) 1 in
  Some [x; y].

Section WithCrypto.
Context {crypto : MaciCrypto.t}.

Definition new (rawPubKey : list Z) : option t :=
  let* _ := assert (Nat.eqb (List.length rawPubKey) 2) in
  let* _ := assert (js_lt (nth_error rawPubKey 0) MaciCrypto.SNARK_FIELD_SIZE) in
  let* _ := assert (js_lt (nth_error rawPubKey 1) MaciCrypto.SNARK_FIELD_SIZE) in
  Some (mk rawPubKey).

(** [BigInt(undefined)] throws; [&&] reads the second coordinate only
    when the first is zero. *)
Definition serialize (this : t) : option string :=
  let* x := nth_error (rawPubKey this) 0 in
  let* blank :=
    if x =? 0
    then (let* y := nth_error (rawPubKey this) 1 in Some (y =? 0))
    else Some false in
  if (blank : bool) then Some (SERIALIZED_PUB_KEY_PREFIX ++ "z")
  else
    let packed := Hex.Buffer_toString_hex (MaciCrypto.packPubKey (rawPubKey this)) in
    Some (SERIALIZED_PUB_KEY_PREFIX ++ packed).

Definition unserialize (s : string) : option t :=
  if String.eqb s (SERIALIZED_PUB_KEY_PREFIX ++ "z") then new [0; 0]
  else
    let len := String.length SERIALIZED_PUB_KEY_PREFIX in
    let packed := Hex.Buffer_from_hex (JsString.slice len s) in
    let* raw := MaciCrypto.unpackPubKey packed in
    new raw.

Definition isValidSerializedPubKey (s : string) : bool :=
  let correctPrefix := JsString.startsWith s SERIALIZED_PUB_KEY_PREFIX in
  let validValue :=
    match unserialize s with
    | Some _ => true
    | None => false
    end in
  correctPrefix && validValue.

End WithCrypto.

End PubKey.

(** ** class Message *)

Module Message.

Record t := mk { iv : Z; data : list Z }.

Definition DATA_LENGTH : nat := 7.

Definition new (iv : Z) (data : list Z) : option t :=
  let* _ := assert (Nat.eqb (List.length data) DATA_LENGTH) in
  Some (mk iv data).

Definition asArray (this : t) : list Z := iv this :: data this.

(** A [Message] handed to [decrypt] of [maci-crypto] is read through
    its [iv] and [data]. *)
Definition asCiphertext (this : t) : Ciphertext.t :=
  Ciphertext.mk (iv this) (data this).

Section WithCrypto.
Context {crypto : MaciCrypto.t}.

(** An element missing from [data] is reported as a failure
    (construction rules it out). *)
Definition hash (this : t) : option Z :=
  let p := data this in
  let* p0 := nth_error p 0 in
  let* p1 := nth_error p 1 in
  let* p2 := nth_error p 2 in
  let* p3 := nth_error p 3 in
  let* p4 := nth_error p 4 in
  let* p5 := nth_error p 5 in
  let* p6 := nth_error p 6 in
  Some (MaciCrypto.hash4 [MaciCrypto.hash5 [iv this; p0; p1; p2; p3]; p4; p5; p6]).

End WithCrypto.

End Message.

(** ** class StateLeaf *)

Module StateLeaf.

Record t := mk { pubKey : PubKey.t; voiceCreditBalance : Z }.

(** The object literal [j] of [serialize]. *)
Definition json (pubKey voiceCreditBalance : string) : Json :=
  JObject [("pubKey", JString pubKey);
           ("voiceCreditBalance", JString voiceCreditBalance)].

Section WithLibraries.
Context {crypto : MaciCrypto.t} {codecs : Codecs}.

Definition genBlankLeaf : option t :=
  let* k := PubKey.new [0; 0] in
  Some (mk k 0).

Definition asArray (this : t) : option (list Z) :=
  let* k := PubKey.asArray (pubKey this) in
  Some (k ++ [voiceCreditBalance this])%list.

Definition hash (this : t) : option Z :=
  let* a := asArray this in
  Some (MaciCrypto.hash3 a).

Definition serialize (this : t) : option string :=
  let* k := PubKey.serialize (pubKey this) in
  let j := json k (Hex.toString16 (voiceCreditBalance this)) in
  Some (base64url (JsString.Buffer_from_utf8 (JSON_stringify j))).

Definition unserialize (serialized : string) : option t :=
  let* j := JSON_parse (base64url_decode serialized) in
  let* ks := Json_get_string j "pubKey" in
  let* k := PubKey.unserialize ks in
  let* vs := Json_get_string j "voiceCreditBalance" in
  let* v := Hex.BigInt_0x vs in
  Some (mk k v).

End WithLibraries.

End StateLeaf.

(** ** class Command *)

Module Command.

Record t := mk {
  stateIndex : Z;
  newPubKey : PubKey.t;
  voteOptionIndex : Z;
  newVoteWeight : Z;
  nonce : Z;
  pollId : Z;
  salt : Z
}.

(** [BigInt(2 ** 50)]; the Number [2 ** 50] is exact. *)
Definition limit50Bits : Z := 2 ^ 50.

(** The constructor, with the salt given (the default argument draws a
    random one). *)
Definition new (stateIndex : Z) (newPubKey : PubKey.t)
    (voteOptionIndex newVoteWeight nonce pollId salt : Z) : option t :=
  let* _ := assert (limit50Bits >=? stateIndex) in
  let* _ := assert (limit50Bits >=? voteOptionIndex) in
  let* _ := assert (limit50Bits >=? newVoteWeight) in
  let* _ := assert (limit50Bits >=? nonce) in
  let* _ := assert (limit50Bits >=? pollId) in
  Some (mk stateIndex newPubKey voteOptionIndex newVoteWeight nonce pollId salt).

(** The packed value [p] of [asArray]. *)
Definition pack (stateIndex voteOptionIndex newVoteWeight nonce pollId : Z) : Z :=
  stateIndex +
  Z.shiftl voteOptionIndex 50 +
  Z.shiftl newVoteWeight 100 +
  Z.shiftl nonce 150 +
  Z.shiftl pollId 200.

Definition asArray (this : t) : option (list Z) :=
  let p := pack (stateIndex this) (voteOptionIndex this) (newVoteWeight this)
                (nonce this) (pollId this) in
  let* k := PubKey.asArray (newPubKey this) in
  let a := ([p] ++ k ++ [salt this])%list in
  let* _ := assert (Nat.eqb (List.length a) 4) in
  Some a.

(** [this.newPubKey[0]] and [this.newPubKey[1]] index the [PubKey]
    object, not its [rawPubKey]. *)
Definition equals (this command : t) : bool :=
  (stateIndex this =? stateIndex command) &&
  looseEq (PubKey.get (newPubKey this) "0") (PubKey.get (newPubKey command) "0") &&
  looseEq (PubKey.get (newPubKey this) "1") (PubKey.get (newPubKey command) "1") &&
  (voteOptionIndex this =? voteOptionIndex command) &&
  (newVoteWeight this =? newVoteWeight command) &&
  (nonce this =? nonce command) &&
  (pollId this =? pollId command) &&
  (salt this =? salt command).

(** The local function [extract] of [decrypt]. *)
Definition extract (val pos : Z) : Z :=
  Z.shiftr (Z.land (Z.shiftl (Z.shiftl 1 50 - 1) pos) val) pos.

Section WithCrypto.
Context {crypto : MaciCrypto.t}.

Definition hash (this : t) : option Z :=
  let* a := asArray this in
  Some (MaciCrypto.hash4 a).

Definition sign (this : t) (privKey : PrivKey.t) : option Signature.t :=
  let* h := hash this in
  Some (MaciCrypto.sign (PrivKey.rawPrivKey privKey) h).

Definition encrypt (this : t) (signature : Signature.t)
    (sharedKey : MaciCrypto.EcdhSharedKey) : option Message.t :=
  let* a := asArray this in
  let plaintext :=
    (a ++ [fst (Signature.R8 signature);
           snd (Signature.R8 signature);
           Signature.S signature])%list in
  let* _ := assert (Nat.eqb (List.length plaintext) 7) in
  let ciphertext := MaciCrypto.encrypt plaintext sharedKey in
  let* _ := assert (Nat.eqb (List.length (Ciphertext.data ciphertext))
                            (List.length plaintext)) in
  Message.new (Ciphertext.iv ciphertext) (Ciphertext.data ciphertext).

(** The static [decrypt]. An element missing from the decrypted array
    is reported as a failure. *)
Definition decrypt (message : Message.t) (sharedKey : MaciCrypto.EcdhSharedKey)
    : option (t * Signature.t) :=
  let decrypted := MaciCrypto.decrypt (Message.asCiphertext message) sharedKey in
  let* p := nth_error decrypted 0 in
  let stateIndex := extract p 0 in
  let voteOptionIndex := extract p 50 in
  let newVoteWeight := extract p 100 in
  let nonce := extract p 150 in
  let pollId := extract p 200 in
  let* d1 := nth_error decrypted 1 in
  let* d2 := nth_error decrypted 2 in
  let* newPubKey := PubKey.new [d1; d2] in
  let* salt := nth_error decrypted 3 in
  let* command := new stateIndex newPubKey voteOptionIndex newVoteWeight
                      nonce pollId salt in
  let* d4 := nth_error decrypted 4 in
  let* d5 := nth_error decrypted 5 in
  let* d6 := nth_error decrypted 6 in
  Some (command, Signature.mk (d4, d5) d6).

End WithCrypto.

(** *** The spec's formulas, to compare with [pack] and [extract] *)

(** A field that fits in 50 bits. *)
Definition fits50 (x : Z) : Prop := 0 <= x < 2 ^ 50.

(** [p = stateIndex | (voteOptionIndex << 50) | (newVoteWeight << 100)
    | (nonce << 150) | (pollId << 200)]. *)
Definition pack_spec (stateIndex voteOptionIndex newVoteWeight nonce pollId : Z) : Z :=
  Z.lor (Z.lor (Z.lor (Z.lor stateIndex (Z.shiftl voteOptionIndex 50))
                      (Z.shiftl newVoteWeight 100))
               (Z.shiftl nonce 150))
        (Z.shiftl pollId 200).

(** [extract(val, pos) = (val >> pos) & (2^50 - 1)]. *)
Definition extract_spec (val pos : Z) : Z :=
  Z.land (Z.shiftr val pos) (2 ^ 50 - 1).

End Command.

(** ** A small instance of the imported interfaces

    Enough to run the methods above on concrete inputs: an additive
    stream cipher, sums for hashes, one byte per coordinate for point
    packing, and codecs for the two-field object of a state leaf. *)

Module Sample.

Definition field_size : Z :=
  21888242871839275222246405745257275088548364400416034343698204186575808495617.

Definition sum (l : list Z) : Z := fold_right Z.add 0 l.

Definition pack (raw : list Z) : list byte :=
  map (fun z => byte_of_ascii (ascii_of_N (Z.to_N z))) raw.

Definition unpack (buf : list byte) : option (list Z) :=
  Some (map (fun b => Z.of_N (Byte.to_N b)) buf).

Definition crypto : MaciCrypto.t := {|
  MaciCrypto.SNARK_FIELD_SIZE := field_size;
  MaciCrypto.EcdhSharedKey := Z;
  MaciCrypto.hash3 := sum;
  MaciCrypto.hash4 := sum;
  MaciCrypto.hash5 := sum;
  MaciCrypto.sign := fun sk h => Signature.mk (sk, h) (sk + h);
  MaciCrypto.encrypt := fun pt k => Ciphertext.mk (sum pt) (map (fun e => e + k) pt);
  MaciCrypto.decrypt := fun ct k => map (fun e => e - k) (Ciphertext.data ct);
  MaciCrypto.packPubKey := pack;
  MaciCrypto.unpackPubKey := unpack
|}.

(** The text before the first comma and the text after it. *)
Fixpoint split_comma (s : string) : option (string * string) :=
  match s with
  | EmptyString => None
  | String c s' =>
      if Ascii.eqb c "," then Some (EmptyString, s')
      else
        match split_comma s' with
        | Some (a, b) => Some (String c a, b)
        | None => None
        end
  end.

Definition stringify (j : Json) : string :=
  match j with
  | JObject [(_, JString a); (_, JString b)] => a ++ "," ++ b
  | _ => EmptyString
  end.

Definition parse (s : string) : option Json :=
  match split_comma s with
  | Some (a, b) => Some (StateLeaf.json a b)
  | None => None
  end.

Definition codecs : Codecs := {|
  base64url := string_of_list_byte;
  base64url_decode := fun s => s;
  JSON_stringify := stringify;
  JSON_parse := parse
|}.

Definition blankKey : PubKey.t := PubKey.mk [0; 0].
Definition someKey : PubKey.t := PubKey.mk [5; 9].

End Sample.

(** * The rest of the package *)

(** ** Decimal text of a BigInt *)

Module Dec.

(** Decimal digits of a positive integer, least significant first. *)
Fixpoint digits_le (fuel : nat) (n : Z) : list Z :=
  match fuel with
  | O => []
  | S fuel' => if n <=? 0 then [] else (n mod 10) :: digits_le fuel' (n / 10)
  end.

Fixpoint value_le (ds : list Z) : Z :=
  match ds with
  | [] => 0
  | d :: ds' => d + 10 * value_le ds'
  end.

(** [n.toString()] on a BigInt. *)
Definition toString (n : Z) : string :=
  if n =? 0 then "0"
  else if n <? 0 then
    String "-" (string_of_list_ascii
                  (map Hex.digit (rev (digits_le (Hex.fuel_for (- n)) (- n)))))
  else string_of_list_ascii (map Hex.digit (rev (digits_le (Hex.fuel_for n) n))).

(** Digits in radix [r], most significant first. *)
Fixpoint parse_radix (r : Z) (l : list ascii) (acc : Z) : option Z :=
  match l with
  | [] => Some acc
  | c :: l' =>
      match Hex.value c with
      | Some d => if d <? r then parse_radix r l' (acc * r + d) else None
      | None => None
      end
  end.

(** At least one digit is needed. *)
Definition parse_digits1 (r : Z) (l : list ascii) : option Z :=
  match l with
  | [] => None
  | _ => parse_radix r l 0
  end.

(** The radix a letter after a leading [0] announces. *)
Definition radix_of (c : ascii) : option Z :=
  if Ascii.eqb c "x" || Ascii.eqb c "X" then Some 16
  else if Ascii.eqb c "o" || Ascii.eqb c "O" then Some 8
  else if Ascii.eqb c "b" || Ascii.eqb c "B" then Some 2
  else None.

Definition trim (l : list ascii) : list ascii :=
  Hex.trimEnd (Hex.dropWhile Hex.isWhiteSpace l).

(** [BigInt(s)] on a string ([StringToBigInt]): white space is trimmed at
    both ends; the empty text is zero; then either a radix prefix and
    digits, without a sign, or an optional sign and decimal digits; a
    [SyntaxError] otherwise. *)
Definition BigInt (s : string) : option Z :=
  let l := trim (list_ascii_of_string s) in
  match l with
  | [] => Some 0
  | c :: l' =>
      if Ascii.eqb c "-" then option_map Z.opp (parse_digits1 10 l')
      else if Ascii.eqb c "+" then parse_digits1 10 l'
      else
        match l' with
        | p :: l'' =>
            match (if Ascii.eqb c "0" then radix_of p else None) with
            | Some r => parse_digits1 r l''
            | None => parse_digits1 10 l
            end
        | [] => parse_digits1 10 l
        end
  end.

(** [BigInt(x.toString())], the deep copy of one BigInt. *)
Definition copy (x : Z) : option Z := BigInt (toString x).

End Dec.

(** [l.map(f)] where [f] may throw. *)
Fixpoint map_throwing {A B : Type} (f : A -> option B) (l : list A)
    : option (list B) :=
  match l with
  | [] => Some []
  | a :: l' =>
      let* b := f a in
      let* bs := map_throwing f l' in
      Some (b :: bs)
  end.

(** [a === b] where either side may be [undefined]. *)
Definition strictEq (a b : option Z) : bool :=
  match a, b with
  | Some x, Some y => x =? y
  | None, None => true
  | _, _ => false
  end.

(** ** The [copy] methods *)

Definition PrivKey_copy (this : PrivKey.t) : option PrivKey.t :=
  let* v := Dec.copy (PrivKey.rawPrivKey this) in
  Some (PrivKey.mk v).

(** [undefined.toString()] throws. *)
Definition PubKey_copy {crypto : MaciCrypto.t} (this : PubKey.t)
    : option PubKey.t :=
  let* x := nth_error (PubKey.rawPubKey this) 0 in
  let* x' := Dec.copy x in
  let* y := nth_error (PubKey.rawPubKey this) 1 in
  let* y' := Dec.copy y in
  PubKey.new [x'; y'].

Definition Message_copy (this : Message.t) : option Message.t :=
  let* iv := Dec.copy (Message.iv this) in
  let* data := map_throwing Dec.copy (Message.data this) in
  Message.new iv data.

Definition StateLeaf_copy {crypto : MaciCrypto.t} (this : StateLeaf.t)
    : option StateLeaf.t :=
  let* k := PubKey_copy (StateLeaf.pubKey this) in
  let* v := Dec.copy (StateLeaf.voiceCreditBalance this) in
  Some (StateLeaf.mk k v).

Definition Command_copy {crypto : MaciCrypto.t} (this : Command.t)
    : option Command.t :=
  let* stateIndex := Dec.copy (Command.stateIndex this) in
  let* newPubKey := PubKey_copy (Command.newPubKey this) in
  let* voteOptionIndex := Dec.copy (Command.voteOptionIndex this) in
  let* newVoteWeight := Dec.copy (Command.newVoteWeight this) in
  let* nonce := Dec.copy (Command.nonce this) in
  let* pollId := Dec.copy (Command.pollId this) in
  let* salt := Dec.copy (Command.salt this) in
  Command.new stateIndex newPubKey voteOptionIndex newVoteWeight nonce pollId salt.

(** ** class Keypair *)

Module MaciKeys.
(** [genPubKey] and [genEcdhSharedKey] of [maci-crypto], which [Keypair]
    calls; their code is not in this package. *)
Class t {crypto : MaciCrypto.t} := {
  genPubKey : Z -> list Z;
  genEcdhSharedKey : Z -> list Z -> MaciCrypto.EcdhSharedKey
}.
End MaciKeys.

Module Keypair.

Record t := mk { privKey : PrivKey.t; pubKey : PubKey.t }.

Section WithCrypto.
Context {crypto : MaciCrypto.t} {keys : MaciKeys.t}.

(** The constructor given a private key (an object, so the test
    [if (privKey)] takes the first branch). *)
Definition new (privKey : PrivKey.t) : option t :=
  let* k := PubKey.new (MaciKeys.genPubKey (PrivKey.rawPrivKey privKey)) in
  Some (mk privKey k).

(** The constructor without argument, on the pair [genKeypair()] drew. *)
Definition newRandom (rawPrivKey : Z) (rawPubKey : list Z) : option t :=
  let* k := PubKey.new rawPubKey in
  Some (mk (PrivKey.mk rawPrivKey) k).

Definition copy (this : t) : option t :=
  let* sk := PrivKey_copy (privKey this) in
  new sk.

Definition genEcdhSharedKey (privKey : PrivKey.t) (pubKey : PubKey.t)
    : MaciCrypto.EcdhSharedKey :=
  MaciKeys.genEcdhSharedKey (PrivKey.rawPrivKey privKey) (PubKey.rawPubKey pubKey).

End WithCrypto.

Definition equals (this keypair : t) : option bool :=
  let equalPrivKey :=
    PrivKey.rawPrivKey (privKey this) =? PrivKey.rawPrivKey (privKey keypair) in
  let equalPubKey :=
    strictEq (nth_error (PubKey.rawPubKey (pubKey this)) 0)
             (nth_error (PubKey.rawPubKey (pubKey keypair)) 0) &&
    strictEq (nth_error (PubKey.rawPubKey (pubKey this)) 1)
             (nth_error (PubKey.rawPubKey (pubKey keypair)) 1) in
  let x := equalPrivKey && equalPubKey in
  let y := negb equalPrivKey && negb equalPubKey in
  let* _ := assert ((x && negb y) || (negb x && y)) in
  Some equalPrivKey.

End Keypair.

(** ** class VerifyingKey *)

Module Points.
(** [G1Point] and [G2Point] of [maci-crypto] with their [equals]; their
    code is not in this package. *)
Class t := {
  G1Point : Type;
  G2Point : Type;
  G1_equals : G1Point -> G1Point -> bool;
  G2_equals : G2Point -> G2Point -> bool
}.
End Points.

Module VerifyingKey.
Section WithPoints.
Context {points : Points.t}.

Record t := mk {
  alpha1 : Points.G1Point;
  beta2 : Points.G2Point;
  gamma2 : Points.G2Point;
  delta2 : Points.G2Point;
  ic : list Points.G1Point
}.

(** One turn of the loop of [equals]: [&&] calls [equals] on the two
    elements only while [icEqual] is true; an element that is not there
    has no [equals] to call. *)
Definition ic_step (this vk : t) (icEqual : option bool) (i : nat)
    : option bool :=
  let* b := icEqual in
  if (b : bool) then
    let* p := nth_error (ic this) i in
    let* q := nth_error (ic vk) i in
    Some (Points.G1_equals p q)
  else Some false.

Definition equals (this vk : t) : option bool :=
  let icEqual := Nat.eqb (List.length (ic this)) (List.length (ic vk)) in
  if negb icEqual then Some false
  else
    let* icEqual :=
      fold_left (ic_step this vk) (seq 0 (List.length (ic this))) (Some icEqual) in
    Some (Points.G1_equals (alpha1 this) (alpha1 vk) &&
          Points.G2_equals (beta2 this) (beta2 vk) &&
          Points.G2_equals (gamma2 this) (gamma2 vk) &&
          Points.G2_equals (delta2 this) (delta2 vk) &&
          icEqual).

End WithPoints.
End VerifyingKey.

(** ** The reference roots of the quad Merkle tree test *)

Module QuadTreeTest.

Definition LEAVES_PER_NODE : nat := 5.

(** What a call does: return a value, throw, or still be running when
    the fuel is spent. *)
Inductive outcome :=
| Returned (v : Z)
| Thrown
| OutOfFuel.

Section WithCrypto.
Context {crypto : MaciCrypto.t}.

(** The loop of [computeEmptyRoot] from turn [i], [n] turns to go: each
    turn pushes the hash of [LEAVES_PER_NODE] copies of [zeros[i-1]]. *)
Fixpoint zeros_loop (n i : nat) (zeros : list Z) : option (list Z) :=
  match n with
  | O => Some zeros
  | S n' =>
      let* z := nth_error zeros (i - 1) in
      let node := repeat z LEAVES_PER_NODE in
      zeros_loop n' (S i) (zeros ++ [MaciCrypto.hash5 node])%list
  end.

Definition computeEmptyRoot (depth : Z) (zeroValue : Z) : option Z :=
  let* _ := assert (depth >? 0) in
  let* zeros := zeros_loop (Z.to_nat (depth - 1)) 1 [zeroValue] in
  let* z := nth_error zeros (Z.to_nat (depth - 1)) in
  Some (MaciCrypto.hash5 (repeat z LEAVES_PER_NODE)).

(** The array [r] of turn [i]: [leaves[i * LEAVES_PER_NODE + j]] for
    [j] from 0. *)
Definition group (leaves : list Z) (i : nat) : option (list Z) :=
  map_throwing (fun j => nth_error leaves (i * LEAVES_PER_NODE + j))
               (seq 0 LEAVES_PER_NODE).

(** The outer loop from turn [i], [n] turns to go. *)
Fixpoint hash_groups (n i : nat) (leaves : list Z) : option (list Z) :=
  match n with
  | O => Some []
  | S n' =>
      let* r := group leaves i in
      let* hashes := hash_groups n' (S i) leaves in
      Some (MaciCrypto.hash5 r :: hashes)
  end.

(** [computeRootFromLeaves]; [fuel] bounds the depth of the recursion. *)
Fixpoint computeRootFromLeaves (fuel : nat) (leaves : list Z) : outcome :=
  match fuel with
  | O => OutOfFuel
  | S fuel' =>
      if Nat.eqb (List.length leaves) 1 then
        match nth_error leaves 0 with
        | Some v => Returned v
        | None => Thrown
        end
      else if negb (Nat.eqb (List.length leaves mod LEAVES_PER_NODE) 0) then Thrown
      else
        match hash_groups (List.length leaves / LEAVES_PER_NODE) 0 leaves with
        | Some hashes => computeRootFromLeaves fuel' hashes
        | None => Thrown
        end
  end.

End WithCrypto.

(** The hashes of [n] consecutive groups of [LEAVES_PER_NODE] leaves: what
    the outer loop computes on a list of [n] full groups (see
    [hash_groups_level_up]). *)
Fixpoint level_up {crypto : MaciCrypto.t} (n : nat) (leaves : list Z) : list Z :=
  match n with
  | O => []
  | S n' =>
      MaciCrypto.hash5 (firstn LEAVES_PER_NODE leaves)
      :: level_up n' (skipn LEAVES_PER_NODE leaves)
  end.

(** The hash of [n] nested full groups over one value. *)
Definition iterated_root {crypto : MaciCrypto.t} (n : nat) (z : Z) : Z :=
  Nat.iter n (fun x => MaciCrypto.hash5 (repeat x LEAVES_PER_NODE)) z.

End QuadTreeTest.

(** ** The command of the state-tree circuit test *)

Module UpdateStateTreeTest.

(** [new Command(stateIndex, user.pubKey, voteOptionIndex, newVoteWeight,
    nonce, salt)]: six arguments, so [salt] is the [pollId] and the
    seventh parameter takes its default, a second random salt. *)
Definition command (userPubKey : PubKey.t) (salt defaultSalt : Z)
    : option Command.t :=
  let stateIndex := 1 in
  let voteOptionIndex := 0 in
  let newVoteWeight := 9 in
  let nonce := 1 in
  Command.new stateIndex userPubKey voteOptionIndex newVoteWeight nonce
              salt defaultSalt.

End UpdateStateTreeTest.

(** ** Sample instances of the further interfaces *)

Module SampleKeys.

Definition keys : MaciKeys.t (crypto := Sample.crypto) :=
  @MaciKeys.Build_t Sample.crypto
    (fun sk => [sk mod 251; (sk / 251) mod 251])
    (fun sk pk => sk * Sample.sum pk).

Definition points : Points.t := {|
  Points.G1Point := Z;
  Points.G2Point := Z * Z;
  Points.G1_equals := Z.eqb;
  Points.G2_equals := fun p q => (fst p =? fst q) && (snd p =? snd q)
|}.

Definition vk (ic : list Z) : VerifyingKey.t (points := points) :=
  @VerifyingKey.mk points 1 (2, 3) (4, 5) (6, 7) ic.

End SampleKeys.

(** * Properties *)

(** ** Throwing computations *)

Lemma assert_Some (b : bool) (u : unit) : assert b = Some u <-> b = true.
Proof. destruct b, u; simpl; split; congruence. Qed.

Lemma assert_true_eq (b : bool) : b = true -> assert b = Some tt.
Proof. intros ->; reflexivity. Qed.

Lemma bind_Some {A B} (m : option A) (k : A -> option B) (b : B) :
  bind m k = Some b <-> exists a, m = Some a /\ k a = Some b.
Proof.
  destruct m as [a|]; simpl; split.
  - intros H; exists a; auto.
  - intros [a' [E H]]; inversion E; subst; exact H.
  - discriminate.
  - intros [a' [E _]]; discriminate.
Qed.

(** Peels one [let*] (or one [assert]) off a successful computation. *)
Ltac peel H :=
  match type of H with
  | bind (assert _) _ = Some _ =>
      let u := fresh "u" in let Hc := fresh "Hc" in
      apply bind_Some in H; destruct H as [u [Hc H]];
      apply assert_Some in Hc
  | bind _ _ = Some _ =>
      let a := fresh "a" in let Ha := fresh "Ha" in
      apply bind_Some in H; destruct H as [a [Ha H]]
  end.

(** ** Strings *)

Lemma slice_append (p s : string) :
  JsString.slice (String.length p) (p ++ s) = s.
Proof. induction p as [|c p IH]; simpl; [destruct s; reflexivity | exact IH]. Qed.

Lemma startsWith_append (p s : string) : JsString.startsWith (p ++ s) p = true.
Proof.
  unfold JsString.startsWith. induction p as [|c p IH]; simpl.
  - destruct s; reflexivity.
  - rewrite IH. destruct (ascii_dec c c); [reflexivity | congruence].
Qed.

Lemma append_inj_l (p s t : string) : (p ++ s = p ++ t)%string -> s = t.
Proof.
  induction p as [|c p IH]; simpl; intros H; [exact H | inversion H; auto].
Qed.

(** ** Hexadecimal text *)

Section HexFacts.
Import Hex.

Lemma value_digit (d : Z) : 0 <= d < 16 -> value (digit d) = Some d.
Proof.
  intros H.
  assert (C : d = 0 \/ d = 1 \/ d = 2 \/ d = 3 \/ d = 4 \/ d = 5 \/ d = 6 \/
              d = 7 \/ d = 8 \/ d = 9 \/ d = 10 \/ d = 11 \/ d = 12 \/
              d = 13 \/ d = 14 \/ d = 15) by lia.
  repeat (destruct C as [-> | C]; [reflexivity |]). subst d; reflexivity.
Qed.

Lemma digit_not_space (d : Z) : isWhiteSpace (digit d) = false.
Proof.
  unfold digit. generalize (Z.to_nat d) as n. intros n.
  do 16 (destruct n as [|n]; [reflexivity |]). reflexivity.
Qed.

Lemma digits_le_range (fuel : nat) (n : Z) :
  Forall (fun d => 0 <= d < 16) (digits_le fuel n).
Proof.
  revert n; induction fuel as [|fuel IH]; intros n; simpl; [constructor |].
  destruct (n <=? 0); constructor; [| apply IH].
  apply Z.mod_pos_bound; lia.
Qed.

Lemma digits_le_value (fuel : nat) (n : Z) :
  0 <= n < 2 ^ Z.of_nat fuel -> value_le (digits_le fuel n) = n.
Proof.
  revert n; induction fuel as [|fuel IH]; intros n H.
  - simpl in *. lia.
  - cbn [digits_le]. destruct (Z.leb_spec n 0) as [Hle | Hgt]; [simpl; lia |].
    cbn [value_le]. rewrite IH.
    + pose proof (Z.div_mod n 16). lia.
    + rewrite Nat2Z.inj_succ, Z.pow_succ_r in H by lia.
      split; [apply Z.div_pos; lia |].
      apply Z.div_lt_upper_bound; lia.
Qed.

Lemma fuel_for_enough (n : Z) : 0 < n -> 0 <= n < 2 ^ Z.of_nat (fuel_for n).
Proof.
  intros H. unfold fuel_for.
  rewrite Nat2Z.inj_succ, Z2Nat.id by apply Z.log2_nonneg.
  pose proof (Z.log2_spec n H). lia.
Qed.

Lemma digits_le_nonempty (fuel : nat) (n : Z) :
  0 < n -> digits_le (S fuel) n <> [].
Proof.
  intros H. cbn [digits_le].
  destruct (Z.leb_spec n 0); [lia | discriminate].
Qed.

Lemma parse_digits_app (l1 l2 : list ascii) (acc : Z) :
  parse_digits (l1 ++ l2) acc = bind (parse_digits l1 acc) (parse_digits l2).
Proof.
  revert acc; induction l1 as [|c l1 IH]; intros acc; simpl; [reflexivity |].
  destruct (value c); [apply IH | reflexivity].
Qed.

(** Reading the digits back, most significant first, on top of what has
    been read so far. *)
Lemma parse_digits_rev (ds : list Z) (acc : Z) :
  Forall (fun d => 0 <= d < 16) ds ->
  parse_digits (map digit (rev ds)) acc =
    Some (acc * 16 ^ Z.of_nat (List.length ds) + value_le ds).
Proof.
  intros F; revert acc; induction F as [|d ds Hd F IH]; intros acc.
  - simpl. f_equal. lia.
  - cbn [rev]. rewrite map_app, parse_digits_app, IH. simpl bind.
    rewrite (value_digit d Hd). cbn [parse_digits value_le List.length].
    f_equal. rewrite Nat2Z.inj_succ, Z.pow_succ_r by lia. ring.
Qed.

Lemma trimEnd_digits (ds : list Z) :
  trimEnd (map digit (rev ds)) = map digit (rev ds).
Proof.
  unfold trimEnd. rewrite <- map_rev, rev_involutive.
  destruct ds as [|d ds]; [reflexivity |].
  cbn [map dropWhile]. rewrite digit_not_space.
  change (digit d :: map digit ds) with (map digit (d :: ds)).
  rewrite <- map_rev. reflexivity.
Qed.

(** [BigInt('0x' + n.toString(16))] is [n] again, for [n >= 0]. *)
Lemma BigInt_0x_toString16 (n : Z) :
  0 <= n -> BigInt_0x (toString16 n) = Some n.
Proof.
  intros H. unfold toString16.
  destruct (Z.eqb_spec n 0) as [-> | Hn]; [reflexivity |].
  destruct (Z.ltb_spec n 0) as [Hneg | _]; [lia |].
  unfold BigInt_0x. rewrite list_ascii_of_string_of_list_ascii, trimEnd_digits.
  assert (Hpos : 0 < n) by lia.
  pose proof (digits_le_nonempty (Z.to_nat (Z.log2 n)) n Hpos) as Hne.
  fold (fuel_for n) in Hne.
  destruct (map digit (rev (digits_le (fuel_for n) n))) as [|c l] eqn:E.
  - apply map_eq_nil in E. apply (f_equal (@rev Z)) in E.
    rewrite rev_involutive in E. contradiction.
  - rewrite <- E, parse_digits_rev by apply digits_le_range.
    rewrite digits_le_value by (apply fuel_for_enough; exact Hpos).
    f_equal; lia.
Qed.

(** A negative number prints with a minus sign, which does not parse. *)
Lemma BigInt_0x_toString16_neg (n : Z) :
  n < 0 -> BigInt_0x (toString16 n) = None.
Proof.
  intros H. unfold toString16.
  destruct (Z.eqb_spec n 0) as [-> | Hn]; [lia |].
  destruct (Z.ltb_spec n 0) as [_ | Hge]; [| lia].
  unfold BigInt_0x. cbn [list_ascii_of_string].
  rewrite list_ascii_of_string_of_list_ascii.
  set (ds := digits_le (fuel_for (- n)) (- n)).
  assert (T : trimEnd ("-"%char :: map digit (rev ds))
              = ("-"%char :: map digit (rev ds))%list).
  { unfold trimEnd. cbn [rev]. rewrite <- map_rev, rev_involutive.
    destruct ds as [|d ds']; [reflexivity |].
    cbn [map app dropWhile]. rewrite digit_not_space.
    change (digit d :: map digit ds' ++ ["-"%char])%list
      with (map digit (d :: ds') ++ ["-"%char])%list.
    rewrite rev_app_distr, <- map_rev. reflexivity. }
  rewrite T. reflexivity.
Qed.

End HexFacts.

Example toString16_255 : Hex.toString16 255 = "ff"%string.
Proof. reflexivity. Qed.

Example toString16_4096 : Hex.toString16 4096 = "1000"%string.
Proof. reflexivity. Qed.

Example BigInt_0x_upper_trailing_space : Hex.BigInt_0x "1F " = Some 31.
Proof. reflexivity. Qed.

Example BigInt_0x_empty : Hex.BigInt_0x "" = None.
Proof. reflexivity. Qed.

Example BigInt_0x_not_hex : Hex.BigInt_0x "1g" = None.
Proof. reflexivity. Qed.

(** ** Buffers as hexadecimal text *)

Section BufferFacts.
Import Hex.

Lemma byte_digits (b : byte) :
  let n := Z.of_N (Byte.to_N b) in
  value (digit (n / 16)) = Some (n / 16) /\
  value (digit (n mod 16)) = Some (n mod 16) /\
  Byte.of_N (Z.to_N (n / 16 * 16 + n mod 16)) = Some b.
Proof. destruct b; vm_compute; repeat split. Qed.

Lemma Buffer_from_hex_toString (buf : list byte) :
  Buffer_from_hex (Buffer_toString_hex buf) = buf.
Proof.
  induction buf as [|b buf IH]; [reflexivity |].
  cbn [Buffer_toString_hex Buffer_from_hex].
  destruct (byte_digits b) as [Hh [Hl Hb]]. cbv zeta in Hh, Hl, Hb |- *.
  rewrite Hh, Hl, Hb, IH. reflexivity.
Qed.

(** No buffer prints as the text of the blank key. *)
Lemma Buffer_toString_hex_not_z (buf : list byte) :
  Buffer_toString_hex buf <> "z"%string.
Proof. destruct buf; simpl; discriminate. Qed.

End BufferFacts.

(** ** PubKey *)

Section PubKeyFacts.
Context {crypto : MaciCrypto.t}.

Lemma length_2_inv {A} (l : list A) :
  List.length l = 2%nat -> exists x y, l = [x; y].
Proof.
  destruct l as [|x [|y [|z l]]]; simpl; try discriminate.
  intros _; exists x, y; reflexivity.
Qed.

Lemma PubKey_new_pair (x y : Z) :
  x < MaciCrypto.SNARK_FIELD_SIZE -> y < MaciCrypto.SNARK_FIELD_SIZE ->
  PubKey.new [x; y] = Some (PubKey.mk [x; y]).
Proof.
  intros Hx Hy. unfold PubKey.new. cbn [List.length Nat.eqb nth_error js_lt].
  apply Z.ltb_lt in Hx, Hy. rewrite Hx, Hy. reflexivity.
Qed.

Lemma PubKey_new_inv (raw : list Z) (k : PubKey.t) :
  PubKey.new raw = Some k ->
  k = PubKey.mk raw /\
  exists x y, raw = [x; y] /\
    x < MaciCrypto.SNARK_FIELD_SIZE /\ y < MaciCrypto.SNARK_FIELD_SIZE.
Proof.
  unfold PubKey.new; intros H.
  peel H. peel H. peel H. inversion H; subst k. split; [reflexivity |].
  apply Nat.eqb_eq in Hc. destruct (length_2_inv _ Hc) as [x [y ->]].
  cbn [nth_error js_lt] in Hc0, Hc1. apply Z.ltb_lt in Hc0, Hc1.
  exists x, y; auto.
Qed.

Lemma PubKey_new_None_length (raw : list Z) :
  List.length raw <> 2%nat -> PubKey.new raw = None.
Proof.
  intros H. unfold PubKey.new.
  destruct (Nat.eqb_spec (List.length raw) 2); [contradiction | reflexivity].
Qed.

Lemma PubKey_new_None_coordinate (x y : Z) :
  MaciCrypto.SNARK_FIELD_SIZE <= x \/ MaciCrypto.SNARK_FIELD_SIZE <= y ->
  PubKey.new [x; y] = None.
Proof.
  intros H. destruct (PubKey.new [x; y]) as [k|] eqn:E; [| reflexivity].
  apply PubKey_new_inv in E. destruct E as [_ [x' [y' [E [Hx Hy]]]]].
  inversion E; subst x' y'. lia.
Qed.

Lemma PubKey_serialize_blank :
  PubKey.serialize (PubKey.mk [0; 0])
  = Some (PubKey.SERIALIZED_PUB_KEY_PREFIX ++ "z")%string.
Proof. reflexivity. Qed.

Lemma PubKey_serialize_packed (x y : Z) :
  [x; y] <> [0; 0] ->
  PubKey.serialize (PubKey.mk [x; y])
  = Some (PubKey.SERIALIZED_PUB_KEY_PREFIX
          ++ Hex.Buffer_toString_hex (MaciCrypto.packPubKey [x; y]))%string.
Proof.
  intros H. unfold PubKey.serialize. cbn [PubKey.rawPubKey nth_error bind].
  destruct (Z.eqb_spec x 0) as [-> | Hx]; [| reflexivity].
  cbn [bind]. destruct (Z.eqb_spec y 0) as [-> | Hy]; [congruence | reflexivity].
Qed.

Lemma PubKey_unserialize_blank :
  PubKey.unserialize (PubKey.SERIALIZED_PUB_KEY_PREFIX ++ "z")%string
  = PubKey.new [0; 0].
Proof. reflexivity. Qed.

Lemma PubKey_unserialize_packed (buf : list byte) :
  PubKey.unserialize
    (PubKey.SERIALIZED_PUB_KEY_PREFIX ++ Hex.Buffer_toString_hex buf)%string
  = bind (MaciCrypto.unpackPubKey buf) PubKey.new.
Proof.
  unfold PubKey.unserialize.
  destruct (String.eqb_spec
              (PubKey.SERIALIZED_PUB_KEY_PREFIX ++ Hex.Buffer_toString_hex buf)
              (PubKey.SERIALIZED_PUB_KEY_PREFIX ++ "z")) as [E | _].
  - apply append_inj_l in E. exfalso; exact (Buffer_toString_hex_not_z _ E).
  - cbv zeta. rewrite slice_append, Buffer_from_hex_toString. reflexivity.
Qed.

(** A constructed key whose packing [maci-crypto] can undo (required of
    a key other than the blank one only) comes back from its text. *)
Lemma PubKey_roundtrip (raw : list Z) (k : PubKey.t) :
  PubKey.new raw = Some k ->
  (raw <> [0; 0] ->
   MaciCrypto.unpackPubKey (MaciCrypto.packPubKey raw) = Some raw) ->
  exists s, PubKey.serialize k = Some s /\ PubKey.unserialize s = Some k.
Proof.
  intros Hnew Hpack. pose proof Hnew as Hinv.
  apply PubKey_new_inv in Hinv. destruct Hinv as [-> [x [y [-> [Hx Hy]]]]].
  destruct (list_eq_dec Z.eq_dec [x; y] [0; 0]) as [E | NE].
  - inversion E; subst x y. eexists; split; [apply PubKey_serialize_blank |].
    rewrite PubKey_unserialize_blank. exact Hnew.
  - eexists; split; [apply PubKey_serialize_packed; exact NE |].
    rewrite PubKey_unserialize_packed, (Hpack NE). exact Hnew.
Qed.

End PubKeyFacts.

(** C8. Constructing a [PubKey] succeeds if and only if the raw key is a
    pair of exactly two coordinates, each strictly less than
    [SNARK_FIELD_SIZE]; it fails when the length is not 2 and when a
    coordinate is at or above the modulus. *)
Theorem PubKey_new_succeeds_iff {crypto : MaciCrypto.t} (raw : list Z) :
  ((exists k, PubKey.new raw = Some k) <->
   (exists x y, raw = [x; y] /\
      x < MaciCrypto.SNARK_FIELD_SIZE /\ y < MaciCrypto.SNARK_FIELD_SIZE)) /\
  (List.length raw <> 2%nat -> PubKey.new raw = None) /\
  (forall x y, raw = [x; y] ->
     MaciCrypto.SNARK_FIELD_SIZE <= x \/ MaciCrypto.SNARK_FIELD_SIZE <= y ->
     PubKey.new raw = None).
Proof.
  split; [split |split].
  - intros [k Hk]. apply PubKey_new_inv in Hk. tauto.
  - intros [x [y [-> [Hx Hy]]]]. eexists. apply PubKey_new_pair; assumption.
  - apply PubKey_new_None_length.
  - intros x y -> H. apply PubKey_new_None_coordinate; exact H.
Qed.

(** The three cases of C8 on concrete keys. *)
Lemma PubKey_new_succeeds_iff_witness :
  (exists k, PubKey.new (crypto := Sample.crypto) [5; 9] = Some k) /\
  PubKey.new (crypto := Sample.crypto) [5; 9; 1] = None /\
  PubKey.new (crypto := Sample.crypto) [5; Sample.field_size] = None.
Proof.
  pose proof (PubKey_new_succeeds_iff (crypto := Sample.crypto) [5; 9]) as [H _].
  pose proof (PubKey_new_succeeds_iff (crypto := Sample.crypto) [5; 9; 1]) as [_ [L _]].
  pose proof (PubKey_new_succeeds_iff (crypto := Sample.crypto)
                [5; Sample.field_size]) as [_ [_ C]].
  split; [| split].
  - apply H. exists 5, 9. repeat split; reflexivity.
  - apply L. simpl. discriminate.
  - apply (C 5 Sample.field_size eq_refl). right. simpl. lia.
Defined.

(** C7. The blank key [[0, 0]] serialises to the prefix followed by the
    reserved text ["z"], which is not the text of any packed point; that
    text unserialises to the blank key; and every constructed key, blank
    or one whose point packing can be undone, comes back from [serialize]
    with the same two coordinates. *)
Theorem PubKey_serialize_roundtrip {crypto : MaciCrypto.t} :
  0 < MaciCrypto.SNARK_FIELD_SIZE ->
  (exists k, PubKey.new [0; 0] = Some k /\
     PubKey.serialize k = Some (PubKey.SERIALIZED_PUB_KEY_PREFIX ++ "z")%string) /\
  (forall buf : list byte,
     (PubKey.SERIALIZED_PUB_KEY_PREFIX ++ Hex.Buffer_toString_hex buf)%string
     <> (PubKey.SERIALIZED_PUB_KEY_PREFIX ++ "z")%string) /\
  PubKey.unserialize (PubKey.SERIALIZED_PUB_KEY_PREFIX ++ "z")%string
    = Some (PubKey.mk [0; 0]) /\
  (forall raw k,
     PubKey.new raw = Some k ->
     (raw <> [0; 0] ->
      MaciCrypto.unpackPubKey (MaciCrypto.packPubKey raw) = Some raw) ->
     exists s k', PubKey.serialize k = Some s /\
       PubKey.unserialize s = Some k' /\
       PubKey.rawPubKey k' = PubKey.rawPubKey k).
Proof.
  intros Hp. split; [| split; [| split]].
  - exists (PubKey.mk [0; 0]). split; [apply PubKey_new_pair; exact Hp |].
    apply PubKey_serialize_blank.
  - intros buf E. apply append_inj_l in E.
    exact (Buffer_toString_hex_not_z buf E).
  - rewrite PubKey_unserialize_blank. apply PubKey_new_pair; exact Hp.
  - intros raw k Hnew Hpack.
    destruct (PubKey_roundtrip raw k Hnew Hpack) as [s [Hs Hu]].
    exists s, k. auto.
Qed.

(** C7 on the key [[5, 9]] of the sample instance. *)
Lemma PubKey_serialize_roundtrip_witness :
  exists s k',
    PubKey.serialize (crypto := Sample.crypto) Sample.someKey = Some s /\
    PubKey.unserialize (crypto := Sample.crypto) s = Some k' /\
    PubKey.rawPubKey k' = [5; 9].
Proof.
  assert (Hp : 0 < MaciCrypto.SNARK_FIELD_SIZE (t := Sample.crypto))
    by reflexivity.
  destruct (PubKey_serialize_roundtrip (crypto := Sample.crypto) Hp)
    as [_ [_ [_ H]]].
  apply (H [5; 9] Sample.someKey).
  - reflexivity.
  - intros _. reflexivity.
Defined.

(** ** PrivKey *)

Section PrivKeyFacts.
Import Hex.

Lemma value_range (c : ascii) (d : Z) : value c = Some d -> 0 <= d < 16.
Proof.
  unfold value. cbv zeta.
  repeat match goal with
         | |- context [if ?b then _ else _] => destruct b eqn:?
         end; intros H; inversion H; lia.
Qed.

Lemma parse_digits_nonneg (l : list ascii) (acc v : Z) :
  0 <= acc -> parse_digits l acc = Some v -> 0 <= v.
Proof.
  revert acc; induction l as [|c l IH]; intros acc Hacc; simpl.
  - intros H; inversion H; subst; exact Hacc.
  - destruct (value c) as [d|] eqn:E; [| discriminate].
    apply value_range in E. apply IH. lia.
Qed.

Lemma BigInt_0x_nonneg (x : string) (v : Z) : BigInt_0x x = Some v -> 0 <= v.
Proof.
  unfold BigInt_0x. destruct (trimEnd (list_ascii_of_string x)); [discriminate |].
  apply parse_digits_nonneg. lia.
Qed.

End PrivKeyFacts.

(** What the predicate tests on top of the parse: [isValidSerializedPrivKey(s)]
    is [true] if and only if [unserialize(s)] succeeds, the scalar it
    yields is a field element, and [s] carries the private-key prefix. *)
Lemma PrivKey_isValid_iff_unserialize {crypto : MaciCrypto.t} (s : string) :
  PrivKey.isValidSerializedPrivKey s = true <->
  exists k, PrivKey.unserialize s = Some k /\
    0 <= PrivKey.rawPrivKey k < MaciCrypto.SNARK_FIELD_SIZE /\
    JsString.startsWith s PrivKey.SERIALIZED_PRIV_KEY_PREFIX = true.
Proof.
  unfold PrivKey.isValidSerializedPrivKey, PrivKey.unserialize. cbv zeta.
  destruct (Hex.BigInt_0x
              (JsString.slice (String.length PrivKey.SERIALIZED_PRIV_KEY_PREFIX) s))
    as [v|] eqn:E; cbn [bind].
  - rewrite andb_true_iff, Z.ltb_lt. split.
    + intros [Hpre Hlt]. exists (PrivKey.mk v). cbn [PrivKey.rawPrivKey].
      pose proof (BigInt_0x_nonneg _ _ E). auto.
    + intros [k [Hk [[_ Hlt] Hpre]]]. inversion Hk; subst k. auto.
  - rewrite andb_false_r. split; [discriminate |].
    intros [k [Hk _]]; discriminate.
Qed.

(** On the text ["macisk.1f"]. *)
Lemma PrivKey_isValid_iff_unserialize_witness :
  PrivKey.isValidSerializedPrivKey (crypto := Sample.crypto) "macisk.1f" = true /\
  PrivKey.unserialize "macisk.1f" = Some (PrivKey.mk 31).
Proof.
  split; [| reflexivity].
  apply (PrivKey_isValid_iff_unserialize (crypto := Sample.crypto)).
  exists (PrivKey.mk 31). repeat split; simpl; lia.
Defined.

(** The parse path alone checks neither the prefix nor the range: a text
    with another prefix of the same length parses, and the predicate
    rejects it. *)
Remark PrivKey_unserialize_ignores_prefix :
  PrivKey.unserialize "macipk.1f" = Some (PrivKey.mk 31) /\
  PrivKey.isValidSerializedPrivKey (crypto := Sample.crypto) "macipk.1f" = false.
Proof. split; reflexivity. Qed.

(** ** Message *)

Lemma length_7_inv {A} (l : list A) :
  List.length l = 7%nat ->
  exists p0 p1 p2 p3 p4 p5 p6, l = [p0; p1; p2; p3; p4; p5; p6].
Proof.
  destruct l as [|p0 [|p1 [|p2 [|p3 [|p4 [|p5 [|p6 [|p7 l]]]]]]]];
    simpl; try discriminate.
  intros _. exists p0, p1, p2, p3, p4, p5, p6. reflexivity.
Qed.

Lemma Message_new_Some (iv : Z) (data : list Z) (m : Message.t) :
  Message.new iv data = Some m <->
  List.length data = 7%nat /\ m = Message.mk iv data.
Proof.
  unfold Message.new, Message.DATA_LENGTH.
  destruct (Nat.eqb_spec (List.length data) 7) as [E | NE]; simpl.
  - split; [intros H; inversion H; auto | intros [_ ->]; reflexivity].
  - split; [discriminate | intros [E _]; contradiction].
Qed.

(** C5. For every constructed [Message] with data [p0..p6] and
    initialisation vector [iv], [hash()] is
    [hash4([hash5([iv, p0, p1, p2, p3]), p4, p5, p6])]. *)
Theorem Message_hash_two_stage {crypto : MaciCrypto.t}
    (iv : Z) (data : list Z) (m : Message.t) :
  Message.new iv data = Some m ->
  exists p0 p1 p2 p3 p4 p5 p6,
    Message.data m = [p0; p1; p2; p3; p4; p5; p6] /\
    Message.iv m = iv /\
    Message.hash m =
      Some (MaciCrypto.hash4
              [MaciCrypto.hash5 [iv; p0; p1; p2; p3]; p4; p5; p6]).
Proof.
  intros H. apply Message_new_Some in H. destruct H as [Hlen ->].
  destruct (length_7_inv _ Hlen) as (p0 & p1 & p2 & p3 & p4 & p5 & p6 & ->).
  exists p0, p1, p2, p3, p4, p5, p6. repeat split.
Qed.

(** C5 on a concrete message, with sums for hashes. *)
Lemma Message_hash_two_stage_witness :
  Message.hash (crypto := Sample.crypto) (Message.mk 10 [1; 2; 3; 4; 5; 6; 7])
  = Some (Sample.sum [Sample.sum [10; 1; 2; 3; 4]; 5; 6; 7]).
Proof.
  destruct (Message_hash_two_stage (crypto := Sample.crypto)
              10 [1; 2; 3; 4; 5; 6; 7] _ eq_refl)
    as (p0 & p1 & p2 & p3 & p4 & p5 & p6 & Hd & _ & Hh).
  inversion Hd; subst. exact Hh.
Defined.

(** ** Command: construction and packing *)

Section CommandFacts.
Context {crypto : MaciCrypto.t}.

Lemma Command_new_Some_iff (si : Z) (k : PubKey.t) (voi nvw nonce pid salt : Z)
    (c : Command.t) :
  Command.new si k voi nvw nonce pid salt = Some c <->
  (si <= 2 ^ 50 /\ voi <= 2 ^ 50 /\ nvw <= 2 ^ 50 /\ nonce <= 2 ^ 50 /\
   pid <= 2 ^ 50) /\
  c = Command.mk si k voi nvw nonce pid salt.
Proof.
  unfold Command.new, Command.limit50Bits. rewrite !Z.geb_leb. split.
  - intros H. do 5 peel H. inversion H; subst c.
    rewrite Z.leb_le in *. auto 10.
  - intros [(H1 & H2 & H3 & H4 & H5) ->].
    apply Z.leb_le in H1, H2, H3, H4, H5.
    rewrite H1, H2, H3, H4, H5. reflexivity.
Qed.

Lemma Command_asArray_mk (si x y voi nvw nonce pid salt : Z) :
  Command.asArray (Command.mk si (PubKey.mk [x; y]) voi nvw nonce pid salt)
  = Some [Command.pack si voi nvw nonce pid; x; y; salt].
Proof. reflexivity. Qed.

(** What the two constructors leave of their arguments. *)
Lemma Command_constructed_inv (raw : list Z) (k : PubKey.t)
    (si voi nvw nonce pid salt : Z) (c : Command.t) :
  PubKey.new raw = Some k ->
  Command.new si k voi nvw nonce pid salt = Some c ->
  exists x y, raw = [x; y] /\
    x < MaciCrypto.SNARK_FIELD_SIZE /\ y < MaciCrypto.SNARK_FIELD_SIZE /\
    c = Command.mk si (PubKey.mk [x; y]) voi nvw nonce pid salt.
Proof.
  intros Hk Hc. apply PubKey_new_inv in Hk.
  destruct Hk as [-> (x & y & -> & Hx & Hy)].
  apply Command_new_Some_iff in Hc. destruct Hc as [_ ->].
  exists x, y. auto.
Qed.

End CommandFacts.

(** *** Bit fields *)

Section PackFacts.

Lemma lor_disjoint_add (a b n : Z) :
  0 <= n -> 0 <= a < 2 ^ n -> Z.lor a (b * 2 ^ n) = a + b * 2 ^ n.
Proof.
  intros Hn Ha.
  assert (L : Z.land a (b * 2 ^ n) = 0).
  { rewrite <- (Z.mod_small a (2 ^ n)) by exact Ha.
    rewrite <- Z.land_ones by exact Hn.
    rewrite <- Z.land_assoc, (Z.land_comm (Z.ones n)), Z.land_ones by exact Hn.
    rewrite Z.mod_mul by lia. apply Z.land_0_r. }
  pose proof (Z.add_lor_land a (b * 2 ^ n)) as H. rewrite L in H. lia.
Qed.

Lemma pack_arith (si voi nvw nonce pid : Z) :
  Command.pack si voi nvw nonce pid =
  si + 2 ^ 50 * (voi + 2 ^ 50 * (nvw + 2 ^ 50 * (nonce + 2 ^ 50 * pid))).
Proof.
  unfold Command.pack. rewrite !Z.shiftl_mul_pow2 by lia.
  change (2 ^ 100) with (2 ^ 50 * 2 ^ 50).
  change (2 ^ 150) with (2 ^ 50 * (2 ^ 50 * 2 ^ 50)).
  change (2 ^ 200) with (2 ^ 50 * (2 ^ 50 * (2 ^ 50 * 2 ^ 50))).
  ring.
Qed.

End PackFacts.

Section UnpackFacts.

Lemma pack_spec_pack (si voi nvw nonce pid : Z) :
  Command.fits50 si -> Command.fits50 voi -> Command.fits50 nvw ->
  Command.fits50 nonce ->
  Command.pack_spec si voi nvw nonce pid = Command.pack si voi nvw nonce pid.
Proof.
  unfold Command.fits50, Command.pack_spec, Command.pack.
  intros Hsi Hvoi Hnvw Hnonce.
  rewrite !Z.shiftl_mul_pow2 by lia.
  rewrite (lor_disjoint_add si voi 50) by lia.
  rewrite (lor_disjoint_add (si + voi * 2 ^ 50) nvw 100) by lia.
  rewrite (lor_disjoint_add _ nonce 150) by lia.
  rewrite (lor_disjoint_add _ pid 200) by lia.
  reflexivity.
Qed.

Lemma extract_extract_spec (val pos : Z) :
  0 <= pos -> Command.extract val pos = Command.extract_spec val pos.
Proof.
  intros Hpos. unfold Command.extract, Command.extract_spec.
  change (Z.shiftl 1 50 - 1) with (2 ^ 50 - 1).
  rewrite Z.shiftr_land, Z.shiftr_shiftl_l by exact Hpos.
  rewrite Z.sub_diag, Z.shiftl_0_r. apply Z.land_comm.
Qed.

Lemma extract_spec_div_mod (val pos : Z) :
  0 <= pos -> Command.extract_spec val pos = (val / 2 ^ pos) mod 2 ^ 50.
Proof.
  intros Hpos. unfold Command.extract_spec.
  change (2 ^ 50 - 1) with (Z.ones 50).
  rewrite Z.land_ones, Z.shiftr_div_pow2 by lia. reflexivity.
Qed.

(** One field off the bottom of a packed value. *)
Lemma field_div_mod (a r : Z) :
  0 <= a < 2 ^ 50 ->
  (a + 2 ^ 50 * r) / 2 ^ 50 = r /\ (a + 2 ^ 50 * r) mod 2 ^ 50 = a.
Proof.
  intros Ha. split.
  - rewrite Z.mul_comm, Z.div_add by lia. rewrite Z.div_small by exact Ha. lia.
  - rewrite Z.mul_comm, Z.mod_add by lia. apply Z.mod_small; exact Ha.
Qed.

(** The five reads of [decrypt] give back the five packed fields. *)
Lemma extract_pack (si voi nvw nonce pid : Z) :
  Command.fits50 si -> Command.fits50 voi -> Command.fits50 nvw ->
  Command.fits50 nonce -> Command.fits50 pid ->
  let p := Command.pack si voi nvw nonce pid in
  Command.extract p 0 = si /\
  Command.extract p 50 = voi /\
  Command.extract p 100 = nvw /\
  Command.extract p 150 = nonce /\
  Command.extract p 200 = pid.
Proof.
  unfold Command.fits50. cbv zeta. intros Hsi Hvoi Hnvw Hnonce Hpid.
  rewrite pack_arith.
  set (r3 := nonce + 2 ^ 50 * pid).
  set (r2 := nvw + 2 ^ 50 * r3).
  set (r1 := voi + 2 ^ 50 * r2).
  rewrite !extract_extract_spec, !extract_spec_div_mod by lia.
  change (2 ^ 200) with (2 ^ 50 * 2 ^ 50 * 2 ^ 50 * 2 ^ 50).
  change (2 ^ 150) with (2 ^ 50 * 2 ^ 50 * 2 ^ 50).
  change (2 ^ 100) with (2 ^ 50 * 2 ^ 50).
  change (2 ^ 0) with 1. rewrite Z.div_1_r.
  rewrite <- !Z.div_div by lia.
  destruct (field_div_mod si r1 Hsi) as [D0 M0].
  destruct (field_div_mod voi r2 Hvoi) as [D1 M1].
  destruct (field_div_mod nvw r3 Hnvw) as [D2 M2].
  destruct (field_div_mod nonce pid Hnonce) as [D3 M3].
  fold r3 in D3, M3. fold r2 in D2, M2. fold r1 in D1, M1.
  rewrite M0, !D0, M1, !D1, M2, !D2, M3, D3.
  repeat split. apply Z.mod_small; exact Hpid.
Qed.

End UnpackFacts.

(** ** Command: the claims on packing and construction *)

(** C2. For a constructed command whose five bounded fields fit in 50
    bits (unsigned, less than [2^50]), [asArray()] is the four-element
    array [[p, newPubKey.x, newPubKey.y, salt]], where [p] is the
    bitwise-or packing of the spec; on these fields it equals the sum of
    shifted fields that the code computes. *)
Theorem Command_asArray_packed {crypto : MaciCrypto.t}
    (raw : list Z) (k : PubKey.t) (si voi nvw nonce pid salt : Z)
    (c : Command.t) :
  PubKey.new raw = Some k ->
  Command.new si k voi nvw nonce pid salt = Some c ->
  Command.fits50 si -> Command.fits50 voi -> Command.fits50 nvw ->
  Command.fits50 nonce -> Command.fits50 pid ->
  exists x y, raw = [x; y] /\
    Command.asArray c
      = Some [Command.pack_spec si voi nvw nonce pid; x; y; salt] /\
    Command.pack_spec si voi nvw nonce pid
      = si + Z.shiftl voi 50 + Z.shiftl nvw 100 + Z.shiftl nonce 150
        + Z.shiftl pid 200.
Proof.
  intros Hk Hc Hsi Hvoi Hnvw Hnonce Hpid.
  destruct (Command_constructed_inv _ _ _ _ _ _ _ _ _ Hk Hc)
    as (x & y & -> & _ & _ & ->).
  exists x, y. rewrite Command_asArray_mk, pack_spec_pack by assumption.
  repeat split.
Qed.

(** C2 on a concrete command. *)
Lemma Command_asArray_packed_witness :
  Command.asArray (Command.mk 1 Sample.someKey 0 9 1 2 77)
  = Some [Command.pack_spec 1 0 9 1 2; 5; 9; 77].
Proof.
  destruct (Command_asArray_packed (crypto := Sample.crypto)
              [5; 9] Sample.someKey 1 0 9 1 2 77 _ eq_refl eq_refl)
    as (x & y & E & H & _); try (unfold Command.fits50; lia).
  inversion E; subst x y. exact H.
Defined.

(** Outside the 50-bit fields: the constructor sets no lower bound, and
    on [stateIndex = -1], [voteOptionIndex = 1] the first element of
    [asArray()] is the sum [2^50 - 1], while the bitwise-or packing is
    [-1]. *)
Remark Command_negative_field_sum_not_or :
  let c := Command.mk (-1) Sample.someKey 1 0 0 0 77 in
  PubKey.new (crypto := Sample.crypto) [5; 9] = Some Sample.someKey /\
  Command.new (-1) Sample.someKey 1 0 0 0 77 = Some c /\
  (-1 < 2 ^ 50 /\ 1 < 2 ^ 50 /\ 0 < 2 ^ 50) /\
  Command.asArray c = Some [2 ^ 50 - 1; 5; 9; 77] /\
  Command.pack_spec (-1) 1 0 0 0 = -1 /\
  Command.asArray c <> Some [Command.pack_spec (-1) 1 0 0 0; 5; 9; 77].
Proof.
  cbv zeta. repeat split; try reflexivity. discriminate.
Qed.

(** C3. The constructor's bound is inclusive: a field equal to [2^50],
    which does not fit in 50 bits, is accepted, and its bit 50 is then
    read back as part of the next field. *)
Theorem Command_new_accepts_limit :
  Command.new (2 ^ 50) Sample.blankKey 0 0 0 0 0
    = Some (Command.mk (2 ^ 50) Sample.blankKey 0 0 0 0 0) /\
  ~ Command.fits50 (2 ^ 50) /\
  Command.extract (Command.pack (2 ^ 50) 0 0 0 0) 0 = 0 /\
  Command.extract (Command.pack (2 ^ 50) 0 0 0 0) 50 = 1.
Proof.
  repeat split; try reflexivity. unfold Command.fits50. lia.
Qed.

(** C10. Two commands that agree on [stateIndex], [voteOptionIndex],
    [newVoteWeight], [nonce], [pollId] and [salt] are [equals], whatever
    their public keys: indexing a [PubKey] object with 0 or 1 gives
    [undefined] on both sides. *)
Theorem Command_equals_ignores_newPubKey (c1 c2 : Command.t) :
  Command.stateIndex c1 = Command.stateIndex c2 ->
  Command.voteOptionIndex c1 = Command.voteOptionIndex c2 ->
  Command.newVoteWeight c1 = Command.newVoteWeight c2 ->
  Command.nonce c1 = Command.nonce c2 ->
  Command.pollId c1 = Command.pollId c2 ->
  Command.salt c1 = Command.salt c2 ->
  Command.equals c1 c2 = true /\
  PubKey.get (Command.newPubKey c1) "0" = JsUndefined /\
  PubKey.get (Command.newPubKey c2) "0" = JsUndefined /\
  PubKey.get (Command.newPubKey c1) "1" = JsUndefined /\
  PubKey.get (Command.newPubKey c2) "1" = JsUndefined.
Proof.
  intros H1 H2 H3 H4 H5 H6. unfold Command.equals.
  rewrite H1, H2, H3, H4, H5, H6, !Z.eqb_refl.
  repeat split.
Qed.

(** C10 on two commands that differ in their keys only. *)
Lemma Command_equals_ignores_newPubKey_witness :
  Command.equals (Command.mk 1 Sample.someKey 0 9 1 2 77)
                 (Command.mk 1 Sample.blankKey 0 9 1 2 77) = true /\
  Sample.someKey <> Sample.blankKey.
Proof.
  split; [| discriminate].
  apply (Command_equals_ignores_newPubKey
           (Command.mk 1 Sample.someKey 0 9 1 2 77)
           (Command.mk 1 Sample.blankKey 0 9 1 2 77)); reflexivity.
Defined.

(** ** Command: encryption and decryption *)

Section EnvelopeFacts.
Context {crypto : MaciCrypto.t}.

(** The plaintext [encrypt] builds. *)
Lemma Command_encrypt_mk (si x y voi nvw nonce pid salt : Z)
    (sig : Signature.t) (key : MaciCrypto.EcdhSharedKey) :
  let c := Command.mk si (PubKey.mk [x; y]) voi nvw nonce pid salt in
  let plaintext := [Command.pack si voi nvw nonce pid; x; y; salt;
                    fst (Signature.R8 sig); snd (Signature.R8 sig);
                    Signature.S sig] in
  let ciphertext := MaciCrypto.encrypt plaintext key in
  List.length (Ciphertext.data ciphertext) = 7%nat ->
  Command.encrypt c sig key
  = Some (Message.mk (Ciphertext.iv ciphertext) (Ciphertext.data ciphertext)).
Proof.
  cbv zeta. intros Hlen. unfold Command.encrypt.
  rewrite Command_asArray_mk. cbn [bind app List.length Nat.eqb assert].
  rewrite Hlen. cbn [Nat.eqb assert bind].
  apply Message_new_Some. auto.
Qed.

Lemma Command_encrypt_inv (c : Command.t) (sig : Signature.t)
    (key : MaciCrypto.EcdhSharedKey) (m : Message.t) :
  Command.encrypt c sig key = Some m ->
  exists a, Command.asArray c = Some a /\ List.length a = 4%nat /\
    let ciphertext :=
      MaciCrypto.encrypt
        (a ++ [fst (Signature.R8 sig); snd (Signature.R8 sig);
               Signature.S sig])%list key in
    m = Message.mk (Ciphertext.iv ciphertext) (Ciphertext.data ciphertext) /\
    List.length (Message.data m) = 7%nat.
Proof.
  unfold Command.encrypt. intros H. peel H. peel H. peel H.
  apply Message_new_Some in H. destruct H as [Hlen ->].
  exists a. split; [exact Ha |]. split; [| cbv zeta; split; [reflexivity | exact Hlen]].
  apply Nat.eqb_eq in Hc. rewrite length_app in Hc. simpl in Hc. lia.
Qed.

(** What [decrypt] makes of a seven-element decrypted array. *)
Lemma Command_decrypt_seven (m : Message.t) (key : MaciCrypto.EcdhSharedKey)
    (p x y salt r0 r1 s : Z) :
  MaciCrypto.decrypt (Message.asCiphertext m) key = [p; x; y; salt; r0; r1; s] ->
  Command.decrypt m key =
    let* k := PubKey.new [x; y] in
    let* c := Command.new (Command.extract p 0) k (Command.extract p 50)
                (Command.extract p 100) (Command.extract p 150)
                (Command.extract p 200) salt in
    Some (c, Signature.mk (r0, r1) s).
Proof.
  intros H. unfold Command.decrypt. rewrite H. cbn [nth_error bind].
  destruct (PubKey.new [x; y]) as [k|]; [| reflexivity]. cbn [bind].
  destruct (Command.new _ _ _ _ _ _ _); reflexivity.
Qed.

End EnvelopeFacts.

Lemma Sample_decrypt_encrypt (pt : list Z) (key : Z) :
  MaciCrypto.decrypt (t := Sample.crypto)
    (MaciCrypto.encrypt (t := Sample.crypto) pt key) key = pt.
Proof.
  simpl. rewrite map_map. rewrite <- (map_id pt) at 2.
  apply map_ext. intros e. lia.
Qed.

Lemma Sample_encrypt_length (pt : list Z) (key : Z) :
  List.length (Ciphertext.data (MaciCrypto.encrypt (t := Sample.crypto) pt key))
  = List.length pt.
Proof. simpl. apply length_map. Qed.

(** C6. A [Message] is constructed exactly when its data has 7 elements.
    With a cipher that keeps the length of its plaintext, [encrypt] of a
    constructed command builds the 7-element plaintext (the 4 elements of
    [asArray()], then [R8[0]], [R8[1]] and [S]) and returns a [Message]
    of 7 data elements, the cipher's output. *)
Theorem Command_encrypt_seven {crypto : MaciCrypto.t}
    (raw : list Z) (k : PubKey.t) (si voi nvw nonce pid salt : Z)
    (c : Command.t) (sig : Signature.t) (key : MaciCrypto.EcdhSharedKey) :
  (forall pt key', List.length (Ciphertext.data (MaciCrypto.encrypt pt key'))
                   = List.length pt) ->
  PubKey.new raw = Some k ->
  Command.new si k voi nvw nonce pid salt = Some c ->
  (forall iv data,
     (exists m, Message.new iv data = Some m) <-> List.length data = 7%nat) /\
  exists a m,
    Command.asArray c = Some a /\ List.length a = 4%nat /\
    let plaintext :=
      (a ++ [fst (Signature.R8 sig); snd (Signature.R8 sig);
             Signature.S sig])%list in
    List.length plaintext = 7%nat /\
    Command.encrypt c sig key = Some m /\
    Message.iv m = Ciphertext.iv (MaciCrypto.encrypt plaintext key) /\
    Message.data m = Ciphertext.data (MaciCrypto.encrypt plaintext key) /\
    List.length (Message.data m) = 7%nat.
Proof.
  intros Hlen Hk Hc. split.
  - intros iv data. split.
    + intros [m Hm]. apply Message_new_Some in Hm. tauto.
    + intros H. exists (Message.mk iv data). apply Message_new_Some. auto.
  - destruct (Command_constructed_inv _ _ _ _ _ _ _ _ _ Hk Hc)
      as (x & y & -> & _ & _ & ->).
    eexists. eexists. rewrite Command_asArray_mk.
    split; [reflexivity |]. split; [reflexivity |]. cbv zeta.
    split; [reflexivity |].
    rewrite Command_encrypt_mk by (rewrite Hlen; reflexivity).
    split; [reflexivity |]. cbn [Message.iv Message.data app].
    split; [reflexivity |]. split; [reflexivity |].
    rewrite Hlen. reflexivity.
Qed.

(** C6 on a concrete command, signature and key. *)
Lemma Command_encrypt_seven_witness :
  exists m,
    Command.encrypt (crypto := Sample.crypto)
      (Command.mk 1 Sample.someKey 0 9 1 2 77)
      (Signature.mk (3, 4) 5) 1000 = Some m /\
    List.length (Message.data m) = 7%nat.
Proof.
  destruct (Command_encrypt_seven (crypto := Sample.crypto)
              [5; 9] Sample.someKey 1 0 9 1 2 77 _ (Signature.mk (3, 4) 5) 1000
              Sample_encrypt_length eq_refl eq_refl)
    as [_ (a & m & _ & _ & _ & He & _ & _ & Hl)].
  exists m. split; [exact He | exact Hl].
Defined.

(** C1. With a cipher whose [decrypt] undoes [encrypt] and keeps the
    length of the plaintext, a constructed command whose five bounded
    fields fit in 50 bits (unsigned, less than [2^50]) comes back from
    [decrypt(encrypt(signature, sharedKey), sharedKey)] equal in all seven
    fields, together with the signature, in particular the one [sign]
    makes; the five reads [extract(p, pos)], which are
    [(p >> pos) & (2^50 - 1)], give back the five packed fields. *)
Theorem Command_decrypt_encrypt {crypto : MaciCrypto.t}
    (raw : list Z) (k : PubKey.t) (si voi nvw nonce pid salt : Z)
    (c : Command.t) (privKey : PrivKey.t) (sharedKey : MaciCrypto.EcdhSharedKey) :
  (forall pt key, MaciCrypto.decrypt (MaciCrypto.encrypt pt key) key = pt) ->
  (forall pt key, List.length (Ciphertext.data (MaciCrypto.encrypt pt key))
                  = List.length pt) ->
  PubKey.new raw = Some k ->
  Command.new si k voi nvw nonce pid salt = Some c ->
  Command.fits50 si -> Command.fits50 voi -> Command.fits50 nvw ->
  Command.fits50 nonce -> Command.fits50 pid ->
  (exists signature, Command.sign c privKey = Some signature) /\
  (forall signature, exists message,
     Command.encrypt c signature sharedKey = Some message /\
     Command.decrypt message sharedKey = Some (c, signature)) /\
  (exists p, Command.asArray c = Some (p :: PubKey.rawPubKey k ++ [salt])%list /\
     Command.extract p 0 = si /\
     Command.extract p 50 = voi /\
     Command.extract p 100 = nvw /\
     Command.extract p 150 = nonce /\
     Command.extract p 200 = pid /\
     forall pos, 0 <= pos ->
       Command.extract p pos = Command.extract_spec p pos).
Proof.
  intros Hinv Hlen Hk Hc Hsi Hvoi Hnvw Hnonce Hpid.
  destruct (Command_constructed_inv _ _ _ _ _ _ _ _ _ Hk Hc)
    as (x & y & -> & Hx & Hy & ->).
  apply PubKey_new_inv in Hk. destruct Hk as [-> _].
  destruct (extract_pack si voi nvw nonce pid Hsi Hvoi Hnvw Hnonce Hpid)
    as (E0 & E1 & E2 & E3 & E4).
  split; [| split].
  - eexists. unfold Command.sign, Command.hash.
    rewrite Command_asArray_mk. reflexivity.
  - intros [[r0 r1] s]. eexists. split.
    + apply Command_encrypt_mk. rewrite Hlen. reflexivity.
    + cbn [Signature.R8 Signature.S fst snd].
      erewrite Command_decrypt_seven.
      2:{ unfold Message.asCiphertext. cbn [Message.iv Message.data].
          destruct (MaciCrypto.encrypt _ sharedKey) as [iv data] eqn:E.
          cbn [Ciphertext.iv Ciphertext.data]. rewrite <- E. apply Hinv. }
      rewrite (PubKey_new_pair x y Hx Hy). cbn [bind].
      rewrite E0, E1, E2, E3, E4.
      assert (Hn : Command.new si (PubKey.mk [x; y]) voi nvw nonce pid salt
                   = Some (Command.mk si (PubKey.mk [x; y]) voi nvw nonce pid salt)).
      { apply Command_new_Some_iff.
        unfold Command.fits50 in *. split; [lia | reflexivity]. }
      rewrite Hn. reflexivity.
  - exists (Command.pack si voi nvw nonce pid).
    rewrite Command_asArray_mk. cbn [PubKey.rawPubKey app].
    repeat split; try assumption. intros pos Hpos.
    apply extract_extract_spec; exact Hpos.
Qed.

(** C1 on a concrete command, under the additive cipher. *)
Lemma Command_decrypt_encrypt_witness :
  let c := Command.mk 1 Sample.someKey 0 9 1 2 77 in
  exists message,
    Command.encrypt (crypto := Sample.crypto) c (Signature.mk (3, 4) 5) 1000
      = Some message /\
    Command.decrypt (crypto := Sample.crypto) message 1000
      = Some (c, Signature.mk (3, 4) 5).
Proof.
  assert (F : forall v, 0 <= v < 10 -> Command.fits50 v)
    by (unfold Command.fits50; intros; lia).
  destruct (Command_decrypt_encrypt (crypto := Sample.crypto)
              [5; 9] Sample.someKey 1 0 9 1 2 77 _ (PrivKey.mk 3) 1000
              Sample_decrypt_encrypt Sample_encrypt_length eq_refl eq_refl)
    as [_ [H _]]; try (apply F; lia).
  exact (H (Signature.mk (3, 4) 5)).
Defined.

(** Outside the 50-bit fields: the constructor sets no lower bound and
    accepts [stateIndex = -1]; bits 0 to 49 of the packed value then read
    as [2^50 - 1], and under a cipher that meets both requirements the
    decrypted command differs from the original. *)
Remark Command_negative_field_not_read_back :
  let c := Command.mk (-1) Sample.someKey 0 9 1 2 77 in
  let signature := Signature.mk (3, 4) 5 in
  PubKey.new (crypto := Sample.crypto) [5; 9] = Some Sample.someKey /\
  Command.new (-1) Sample.someKey 0 9 1 2 77 = Some c /\
  (-1 < 2 ^ 50 /\ 0 < 2 ^ 50 /\ 9 < 2 ^ 50 /\ 1 < 2 ^ 50 /\ 2 < 2 ^ 50) /\
  (exists p rest, Command.asArray c = Some (p :: rest) /\
     Command.extract p 0 = 2 ^ 50 - 1 /\
     Command.extract p 0 <> Command.stateIndex c) /\
  exists message c',
    Command.encrypt (crypto := Sample.crypto) c signature 1000 = Some message /\
    Command.decrypt (crypto := Sample.crypto) message 1000
      = Some (c', signature) /\
    Command.stateIndex c' = 2 ^ 50 - 1 /\
    c' <> c.
Proof.
  cbv zeta. split; [reflexivity |]. split; [reflexivity |].
  split; [repeat split |]. split.
  - eexists. eexists. split; [reflexivity |]. split; [reflexivity |].
    vm_compute. discriminate.
  - eexists. eexists. split; [reflexivity |]. split; [vm_compute; reflexivity |].
    split; [reflexivity |]. discriminate.
Qed.

(** ** StateLeaf *)

(** C9. For a leaf with a constructed public key that [serialize] can
    take back (the blank key, or one whose point packing can be undone)
    and a non-negative balance, [serialize()] is the base64url text of the
    JSON object [{pubKey: <serialized key>, voiceCreditBalance: <hex>}],
    and [unserialize] of it is a leaf with the same key coordinates and
    the same balance. The JSON and base64url codecs are required to undo
    each other on that object. *)
Theorem StateLeaf_serialize_roundtrip {crypto : MaciCrypto.t} {codecs : Codecs}
    (raw : list Z) (k : PubKey.t) (balance : Z) :
  PubKey.new raw = Some k ->
  (raw <> [0; 0] ->
   MaciCrypto.unpackPubKey (MaciCrypto.packPubKey raw) = Some raw) ->
  0 <= balance ->
  (forall ks, PubKey.serialize k = Some ks ->
     codecs_invert_on (StateLeaf.json ks (Hex.toString16 balance))) ->
  exists ks leaf',
    PubKey.serialize k = Some ks /\
    StateLeaf.serialize (StateLeaf.mk k balance)
      = Some (base64url
                (JsString.Buffer_from_utf8
                   (JSON_stringify
                      (JObject [("pubKey"%string, JString ks);
                                ("voiceCreditBalance"%string,
                                 JString (Hex.toString16 balance))])))) /\
    bind (StateLeaf.serialize (StateLeaf.mk k balance)) StateLeaf.unserialize
      = Some leaf' /\
    PubKey.rawPubKey (StateLeaf.pubKey leaf') = PubKey.rawPubKey k /\
    StateLeaf.voiceCreditBalance leaf' = balance.
Proof.
  intros Hk Hpack Hbal Hcodecs.
  destruct (PubKey_roundtrip raw k Hk Hpack) as [ks [Hs Hu]].
  destruct (Hcodecs ks Hs) as [Hjson Hb64].
  exists ks, (StateLeaf.mk k balance).
  split; [exact Hs |].
  assert (Hser : StateLeaf.serialize (StateLeaf.mk k balance)
                 = Some (base64url
                           (JsString.Buffer_from_utf8
                              (JSON_stringify
                                 (StateLeaf.json ks (Hex.toString16 balance)))))).
  { unfold StateLeaf.serialize. cbn [StateLeaf.pubKey StateLeaf.voiceCreditBalance].
    rewrite Hs. reflexivity. }
  split; [exact Hser |]. split; [| split; reflexivity].
  rewrite Hser. cbn [bind]. unfold StateLeaf.unserialize.
  rewrite Hb64, Hjson. cbn [bind].
  change (Json_get_string (StateLeaf.json ks (Hex.toString16 balance)) "pubKey")
    with (Some ks).
  cbn [bind]. rewrite Hu. cbn [bind].
  change (Json_get_string (StateLeaf.json ks (Hex.toString16 balance))
            "voiceCreditBalance")
    with (Some (Hex.toString16 balance)).
  cbn [bind]. rewrite (BigInt_0x_toString16 balance Hbal). reflexivity.
Qed.

(** C9 on a concrete leaf. *)
Lemma StateLeaf_serialize_roundtrip_witness :
  bind (StateLeaf.serialize (crypto := Sample.crypto) (codecs := Sample.codecs)
          (StateLeaf.mk Sample.someKey 100))
       (StateLeaf.unserialize (crypto := Sample.crypto) (codecs := Sample.codecs))
  = Some (StateLeaf.mk Sample.someKey 100).
Proof.
  destruct (StateLeaf_serialize_roundtrip
              (crypto := Sample.crypto) (codecs := Sample.codecs)
              [5; 9] Sample.someKey 100 eq_refl)
    as (ks & leaf' & _ & _ & Hu & Hraw & Hb).
  - intros _. reflexivity.
  - lia.
  - intros ks H. inversion H; subst ks. split; reflexivity.
  - rewrite Hu. destruct leaf' as [[raw'] b']. simpl in Hraw, Hb.
    subst raw' b'. reflexivity.
Defined.

(** A negative balance prints with a minus sign and does not parse
    back. *)
Remark StateLeaf_negative_balance :
  Hex.toString16 (-255) = "-ff"%string /\ Hex.BigInt_0x "-ff" = None.
Proof. split; reflexivity. Qed.

(** * Properties of the rest of the package *)

(** ** Decimal text *)

Section DecFacts.

Lemma Dec_digits_le_range (fuel : nat) (n : Z) :
  Forall (fun d => 0 <= d < 10) (Dec.digits_le fuel n).
Proof.
  revert n; induction fuel as [|fuel IH]; intros n; simpl; [constructor |].
  destruct (n <=? 0); constructor; [| apply IH].
  apply Z.mod_pos_bound; lia.
Qed.

Lemma Dec_digits_le_value (fuel : nat) (n : Z) :
  0 <= n < 2 ^ Z.of_nat fuel -> Dec.value_le (Dec.digits_le fuel n) = n.
Proof.
  revert n; induction fuel as [|fuel IH]; intros n H.
  - simpl in *. lia.
  - cbn [Dec.digits_le]. destruct (Z.leb_spec n 0) as [Hle | Hgt]; [simpl; lia |].
    cbn [Dec.value_le]. rewrite IH.
    + pose proof (Z.div_mod n 10). lia.
    + rewrite Nat2Z.inj_succ, Z.pow_succ_r in H by lia.
      split; [apply Z.div_pos; lia |].
      apply Z.div_lt_upper_bound; lia.
Qed.

Lemma Dec_digits_le_nonempty (fuel : nat) (n : Z) :
  0 < n -> Dec.digits_le (S fuel) n <> [].
Proof.
  intros H. cbn [Dec.digits_le].
  destruct (Z.leb_spec n 0); [lia | discriminate].
Qed.

Lemma parse_radix_app (r : Z) (l1 l2 : list ascii) (acc : Z) :
  Dec.parse_radix r (l1 ++ l2) acc
  = bind (Dec.parse_radix r l1 acc) (Dec.parse_radix r l2).
Proof.
  revert acc; induction l1 as [|c l1 IH]; intros acc; simpl; [reflexivity |].
  destruct (Hex.value c) as [d|]; [| reflexivity].
  destruct (d <? r); [apply IH | reflexivity].
Qed.

Lemma parse_radix_10_rev (ds : list Z) (acc : Z) :
  Forall (fun d => 0 <= d < 10) ds ->
  Dec.parse_radix 10 (map Hex.digit (rev ds)) acc
  = Some (acc * 10 ^ Z.of_nat (List.length ds) + Dec.value_le ds).
Proof.
  intros F; revert acc; induction F as [|d ds Hd F IH]; intros acc.
  - simpl. f_equal. lia.
  - cbn [rev]. rewrite map_app, parse_radix_app, IH. simpl bind.
    rewrite (value_digit d) by lia.
    destruct (Z.ltb_spec d 10) as [_ | Hge]; [| lia].
    cbn [Dec.parse_radix Dec.value_le List.length].
    f_equal. rewrite Nat2Z.inj_succ, Z.pow_succ_r by lia. ring.
Qed.

(** A decimal digit is neither a sign nor a radix letter. *)
Lemma decimal_digit_plain (d : Z) :
  0 <= d < 10 ->
  Ascii.eqb (Hex.digit d) "-" = false /\
  Ascii.eqb (Hex.digit d) "+" = false /\
  Dec.radix_of (Hex.digit d) = None.
Proof.
  intros H.
  assert (C : d = 0 \/ d = 1 \/ d = 2 \/ d = 3 \/ d = 4 \/ d = 5 \/ d = 6 \/
              d = 7 \/ d = 8 \/ d = 9) by lia.
  repeat (destruct C as [-> | C]; [repeat split |]). subst d; repeat split.
Qed.

Lemma dropWhile_app_last {A} (f : A -> bool) (l : list A) (a : A) :
  f a = false -> Hex.dropWhile f (l ++ [a]) = (Hex.dropWhile f l ++ [a])%list.
Proof.
  intros Ha. induction l as [|b l IH]; simpl.
  - rewrite Ha. reflexivity.
  - destruct (f b); [exact IH | reflexivity].
Qed.

Lemma trimEnd_cons (c : ascii) (l : list ascii) :
  Hex.isWhiteSpace c = false -> Hex.trimEnd (c :: l) = c :: Hex.trimEnd l.
Proof.
  intros Hc. unfold Hex.trimEnd. cbn [rev].
  rewrite dropWhile_app_last by exact Hc.
  rewrite rev_app_distr. reflexivity.
Qed.

(** The decimal text of a positive number, as characters. *)
Lemma Dec_BigInt_digits (ds : list Z) :
  ds <> [] -> Forall (fun d => 0 <= d < 10) ds ->
  Dec.BigInt (string_of_list_ascii (map Hex.digit (rev ds)))
  = Some (Dec.value_le ds).
Proof.
  intros Hne F. unfold Dec.BigInt.
  rewrite list_ascii_of_string_of_list_ascii. unfold Dec.trim.
  assert (Hparse : Dec.parse_digits1 10 (map Hex.digit (rev ds))
                   = Some (Dec.value_le ds)).
  { unfold Dec.parse_digits1.
    destruct (map Hex.digit (rev ds)) as [|c l] eqn:E.
    - apply map_eq_nil in E. apply (f_equal (@rev Z)) in E.
      rewrite rev_involutive in E. contradiction.
    - rewrite <- E, parse_radix_10_rev by exact F. f_equal; lia. }
  assert (Fr : Forall (fun d => 0 <= d < 10) (rev ds)) by (apply Forall_rev; exact F).
  destruct (rev ds) as [|d0 rest] eqn:E.
  { apply (f_equal (@rev Z)) in E. rewrite rev_involutive in E. contradiction. }
  assert (Hd : Hex.dropWhile Hex.isWhiteSpace (map Hex.digit (d0 :: rest))
               = map Hex.digit (d0 :: rest)).
  { cbn [map Hex.dropWhile]. rewrite digit_not_space. reflexivity. }
  rewrite Hd. rewrite <- E, trimEnd_digits, E. rewrite <- E in Hparse.
  rewrite E in Hparse. cbv zeta. cbn [map] in *.
  inversion Fr as [|? ? H0 Frest]; subst.
  destruct (decimal_digit_plain d0 H0) as (Hm & Hp & _).
  rewrite Hm, Hp.
  destruct rest as [|d1 rest']; [exact Hparse |]. cbn [map] in *.
  inversion Frest as [|? ? H1 _]; subst.
  destruct (decimal_digit_plain d1 H1) as (_ & _ & Hr).
  rewrite Hr. destruct (Ascii.eqb (Hex.digit d0) "0"); exact Hparse.
Qed.

(** [BigInt(n.toString())] is [n], for every BigInt [n]. *)
Lemma Dec_copy_id (n : Z) : Dec.copy n = Some n.
Proof.
  unfold Dec.copy, Dec.toString.
  destruct (Z.eqb_spec n 0) as [-> | Hn]; [reflexivity |].
  destruct (Z.ltb_spec n 0) as [Hneg | Hpos].
  - set (ds := Dec.digits_le (Hex.fuel_for (- n)) (- n)).
    assert (Hne : ds <> []) by (apply Dec_digits_le_nonempty; lia).
    assert (F : Forall (fun d => 0 <= d < 10) ds) by apply Dec_digits_le_range.
    assert (V : Dec.value_le ds = - n)
      by (apply Dec_digits_le_value, fuel_for_enough; lia).
    pose proof (Dec_BigInt_digits ds Hne F) as H.
    unfold Dec.BigInt in *. cbn [list_ascii_of_string].
    rewrite list_ascii_of_string_of_list_ascii in *. unfold Dec.trim in *.
    assert (Hd : Hex.dropWhile Hex.isWhiteSpace (map Hex.digit (rev ds))
                 = map Hex.digit (rev ds)).
    { destruct (rev ds) as [|d0 rest]; [reflexivity |].
      cbn [map Hex.dropWhile]. rewrite digit_not_space. reflexivity. }
    rewrite Hd, trimEnd_digits in H.
    cbn [Hex.dropWhile]. change (Hex.isWhiteSpace "-") with false. cbv iota.
    rewrite trimEnd_cons by reflexivity. rewrite trimEnd_digits. cbv zeta.
    change (Ascii.eqb "-" "-") with true. cbv iota.
    cbv zeta in H.
    destruct (map Hex.digit (rev ds)) as [|c l] eqn:E.
    { apply map_eq_nil in E. apply (f_equal (@rev Z)) in E.
      rewrite rev_involutive in E. contradiction. }
    assert (Hparse : Dec.parse_digits1 10 (c :: l) = Some (- n)).
    { unfold Dec.parse_digits1. rewrite <- E, parse_radix_10_rev by exact F.
      rewrite V. f_equal; lia. }
    rewrite Hparse. simpl. f_equal. lia.
  - set (ds := Dec.digits_le (Hex.fuel_for n) n).
    assert (Hne : ds <> []) by (apply Dec_digits_le_nonempty; lia).
    assert (F : Forall (fun d => 0 <= d < 10) ds) by apply Dec_digits_le_range.
    rewrite (Dec_BigInt_digits ds Hne F). f_equal.
    apply Dec_digits_le_value, fuel_for_enough. lia.
Qed.

Lemma map_throwing_copy (l : list Z) : map_throwing Dec.copy l = Some l.
Proof.
  induction l as [|a l IH]; [reflexivity |].
  cbn [map_throwing]. rewrite Dec_copy_id, IH. reflexivity.
Qed.

End DecFacts.

Example Dec_toString_neg : Dec.toString (-1205) = "-1205"%string.
Proof. reflexivity. Qed.

Example Dec_BigInt_hex : Dec.BigInt " 0x1f " = Some 31.
Proof. reflexivity. Qed.

Example Dec_BigInt_empty : Dec.BigInt "  " = Some 0.
Proof. reflexivity. Qed.

Example Dec_BigInt_signed_hex : Dec.BigInt "-0x1f" = None.
Proof. reflexivity. Qed.

Example Dec_BigInt_plus : Dec.BigInt "+42" = Some 42.
Proof. reflexivity. Qed.

Example Dec_BigInt_exponent : Dec.BigInt "1e3" = None.
Proof. reflexivity. Qed.

(** The two models of [BigInt] on text agree on [BigInt('0x' + x)]. *)
Lemma Dec_BigInt_0x (x : string) :
  Dec.BigInt (String "0" (String "x" x)) = Hex.BigInt_0x x.
Proof.
  assert (P : forall l acc, Dec.parse_radix 16 l acc = Hex.parse_digits l acc).
  { induction l as [|c l IH]; intros acc; simpl; [reflexivity |].
    destruct (Hex.value c) as [d|] eqn:E; [| reflexivity].
    apply value_range in E. destruct (Z.ltb_spec d 16); [apply IH | lia]. }
  unfold Dec.BigInt, Hex.BigInt_0x, Dec.trim. cbn [list_ascii_of_string].
  cbn [Hex.dropWhile]. change (Hex.isWhiteSpace "0") with false. cbv iota.
  rewrite !trimEnd_cons by reflexivity. cbv zeta.
  change (Ascii.eqb "0" "-") with false. change (Ascii.eqb "0" "+") with false.
  change (Ascii.eqb "0" "0") with true. cbv iota.
  change (Dec.radix_of "x") with (Some 16).
  unfold Dec.parse_digits1.
  destruct (Hex.trimEnd (list_ascii_of_string x)); [reflexivity | apply P].
Qed.

(** ** Serialised keys *)

Lemma append_same_length_inj (p q s t : string) :
  String.length p = String.length q ->
  (p ++ s = q ++ t)%string -> p = q /\ s = t.
Proof.
  revert q; induction p as [|c p IH]; intros [|d q]; simpl; try discriminate.
  - auto.
  - intros L E. inversion L. inversion E; subst.
    destruct (IH q H0 H2) as [-> ->]. auto.
Qed.

Lemma startsWith_same_length (p q x : string) :
  String.length p = String.length q ->
  JsString.startsWith (p ++ x) q = true -> p = q.
Proof.
  unfold JsString.startsWith.
  revert q; induction p as [|c p IH]; intros [|d q]; simpl; try discriminate.
  - reflexivity.
  - intros L H. inversion L.
    destruct (ascii_dec d c) as [-> | _]; [| discriminate].
    f_equal. apply IH; assumption.
Qed.

(** X1. A serialised private key parses back to the same key exactly
    when its scalar is not negative; a negative scalar prints with a
    minus sign and [unserialize] throws on the text. *)
Theorem PrivKey_unserialize_serialize (k : PrivKey.t) :
  PrivKey.unserialize (PrivKey.serialize k)
  = if 0 <=? PrivKey.rawPrivKey k then Some k else None.
Proof.
  destruct k as [v]. unfold PrivKey.unserialize, PrivKey.serialize.
  cbn [PrivKey.rawPrivKey]. cbv zeta. rewrite slice_append.
  destruct (Z.leb_spec 0 v) as [H | H].
  - rewrite BigInt_0x_toString16 by exact H. reflexivity.
  - rewrite BigInt_0x_toString16_neg by exact H. reflexivity.
Qed.

(** X2. The text [serialize] makes of a private key is accepted by
    [isValidSerializedPrivKey] exactly when the scalar is a field
    element. *)
Theorem PrivKey_isValid_serialize {crypto : MaciCrypto.t} (k : PrivKey.t) :
  PrivKey.isValidSerializedPrivKey (PrivKey.serialize k)
  = (0 <=? PrivKey.rawPrivKey k)
    && (PrivKey.rawPrivKey k <? MaciCrypto.SNARK_FIELD_SIZE).
Proof.
  destruct k as [v]. unfold PrivKey.isValidSerializedPrivKey, PrivKey.serialize.
  cbn [PrivKey.rawPrivKey]. cbv zeta.
  rewrite startsWith_append, slice_append.
  destruct (Z.leb_spec 0 v) as [H | H].
  - rewrite BigInt_0x_toString16 by exact H. reflexivity.
  - rewrite BigInt_0x_toString16_neg by exact H. reflexivity.
Qed.

(** X3. [PrivKey.unserialize] skips the first seven code units without
    looking at them: whatever they are, the result is the key the rest
    of the text denotes, and the call throws exactly when
    [BigInt('0x' + rest)] does. *)
Theorem PrivKey_unserialize_any_prefix (p x : string) :
  String.length p = 7%nat ->
  PrivKey.unserialize (p ++ x)
  = match Hex.BigInt_0x x with
    | Some v => Some (PrivKey.mk v)
    | None => None
    end.
Proof.
  intros H. unfold PrivKey.unserialize. cbv zeta.
  change (String.length PrivKey.SERIALIZED_PRIV_KEY_PREFIX) with 7%nat.
  rewrite <- H, slice_append. destruct (Hex.BigInt_0x x); reflexivity.
Qed.

(** X3 with the prefix of public keys. *)
Lemma PrivKey_unserialize_any_prefix_witness :
  PrivKey.unserialize "macipk.ff" = Some (PrivKey.mk 255).
Proof.
  exact (PrivKey_unserialize_any_prefix "macipk." "ff" eq_refl).
Defined.

(** X4. The text [serialize] makes of a constructed public key, blank or
    one whose point packing can be undone, is accepted by
    [isValidSerializedPubKey]. *)
Theorem PubKey_isValid_serialize {crypto : MaciCrypto.t}
    (raw : list Z) (k : PubKey.t) (s : string) :
  PubKey.new raw = Some k ->
  (raw <> [0; 0] ->
   MaciCrypto.unpackPubKey (MaciCrypto.packPubKey raw) = Some raw) ->
  PubKey.serialize k = Some s ->
  PubKey.isValidSerializedPubKey s = true.
Proof.
  intros Hnew Hpack Hs.
  destruct (PubKey_roundtrip raw k Hnew Hpack) as [s' [Hs' Hu]].
  rewrite Hs in Hs'. inversion Hs'; subst s'.
  unfold PubKey.isValidSerializedPubKey. cbv zeta. rewrite Hu, andb_true_r.
  apply PubKey_new_inv in Hnew. destruct Hnew as [-> (x & y & -> & _ & _)].
  destruct (list_eq_dec Z.eq_dec [x; y] [0; 0]) as [E | NE].
  - inversion E; subst. rewrite PubKey_serialize_blank in Hs.
    inversion Hs; subst s.
    exact (startsWith_append PubKey.SERIALIZED_PUB_KEY_PREFIX "z").
  - rewrite (PubKey_serialize_packed x y NE) in Hs.
    inversion Hs; subst s.
    exact (startsWith_append PubKey.SERIALIZED_PUB_KEY_PREFIX
             (Hex.Buffer_toString_hex (MaciCrypto.packPubKey [x; y]))).
Qed.

(** X4 on the key [[5, 9]] of the sample instance. *)
Lemma PubKey_isValid_serialize_witness :
  PubKey.isValidSerializedPubKey (crypto := Sample.crypto) "macipk.0509" = true.
Proof.
  apply (PubKey_isValid_serialize (crypto := Sample.crypto)
           [5; 9] Sample.someKey "macipk.0509").
  - reflexivity.
  - intros _. reflexivity.
  - reflexivity.
Defined.

(** X5. [PubKey.unserialize] does not check the prefix either: after any
    seven code units, the hexadecimal text of a buffer is decoded,
    unpacked and constructed; [isValidSerializedPubKey] rejects the same
    text when the seven code units are not the prefix. *)
Theorem PubKey_unserialize_any_prefix {crypto : MaciCrypto.t}
    (p : string) (buf : list byte) :
  String.length p = 7%nat ->
  PubKey.unserialize (p ++ Hex.Buffer_toString_hex buf)
  = bind (MaciCrypto.unpackPubKey buf) PubKey.new /\
  (p <> PubKey.SERIALIZED_PUB_KEY_PREFIX ->
   PubKey.isValidSerializedPubKey (p ++ Hex.Buffer_toString_hex buf) = false).
Proof.
  intros H. split.
  - unfold PubKey.unserialize.
    destruct (String.eqb_spec (p ++ Hex.Buffer_toString_hex buf)
                (PubKey.SERIALIZED_PUB_KEY_PREFIX ++ "z")) as [E | _].
    + apply append_same_length_inj in E; [| exact H].
      destruct E as [_ E]. exfalso. exact (Buffer_toString_hex_not_z _ E).
    + cbv zeta.
      change (String.length PubKey.SERIALIZED_PUB_KEY_PREFIX) with 7%nat.
      rewrite <- H, slice_append, Buffer_from_hex_toString. reflexivity.
  - intros Hp. unfold PubKey.isValidSerializedPubKey. cbv zeta.
    destruct (JsString.startsWith (p ++ Hex.Buffer_toString_hex buf)
                PubKey.SERIALIZED_PUB_KEY_PREFIX) eqn:E; [| reflexivity].
    apply startsWith_same_length in E; [contradiction | exact H].
Qed.

(** X5 with the prefix of private keys. *)
Lemma PubKey_unserialize_any_prefix_witness :
  PubKey.unserialize (crypto := Sample.crypto) "macisk.0509"
    = Some Sample.someKey /\
  PubKey.isValidSerializedPubKey (crypto := Sample.crypto) "macisk.0509" = false.
Proof.
  destruct (PubKey_unserialize_any_prefix (crypto := Sample.crypto)
              "macisk." [Byte.x05; Byte.x09] eq_refl) as [H1 H2].
  split; [exact H1 | apply H2; discriminate].
Defined.

(** ** Deep copies *)

Lemma PubKey_copy_new {crypto : MaciCrypto.t} (raw : list Z) (k : PubKey.t) :
  PubKey.new raw = Some k -> PubKey_copy k = Some k.
Proof.
  intros H. pose proof H as Hinv. apply PubKey_new_inv in Hinv.
  destruct Hinv as [-> (x & y & -> & Hx & Hy)].
  unfold PubKey_copy. cbn [PubKey.rawPubKey nth_error bind].
  rewrite !Dec_copy_id. cbn [bind]. exact H.
Qed.

(** X6. [copy()] of a constructed command never throws and returns a
    command equal to it in all seven fields: every BigInt comes back
    from its decimal text and the two constructors accept the values
    again. *)
Theorem Command_copy_constructed {crypto : MaciCrypto.t}
    (raw : list Z) (k : PubKey.t) (si voi nvw nonce pid salt : Z)
    (c : Command.t) :
  PubKey.new raw = Some k ->
  Command.new si k voi nvw nonce pid salt = Some c ->
  Command_copy c = Some c.
Proof.
  intros Hk Hc. pose proof Hc as Hc'.
  apply Command_new_Some_iff in Hc'. destruct Hc' as [_ ->].
  unfold Command_copy.
  cbn [Command.stateIndex Command.newPubKey Command.voteOptionIndex
       Command.newVoteWeight Command.nonce Command.pollId Command.salt].
  rewrite !Dec_copy_id, (PubKey_copy_new raw k Hk). cbn [bind]. exact Hc.
Qed.

(** X6 on a command with a negative salt and a field at the bound. *)
Lemma Command_copy_constructed_witness :
  let c := Command.mk (2 ^ 50) Sample.someKey 0 9 1 2 (-77) in
  Command_copy (crypto := Sample.crypto) c = Some c.
Proof.
  exact (Command_copy_constructed (crypto := Sample.crypto)
           [5; 9] Sample.someKey (2 ^ 50) 0 9 1 2 (-77) _ eq_refl eq_refl).
Defined.

(** X7. [copy()] of a constructed message never throws and returns a
    message with the same [iv] and the same seven data elements. *)
Theorem Message_copy_constructed (iv : Z) (data : list Z) (m : Message.t) :
  Message.new iv data = Some m -> Message_copy m = Some m.
Proof.
  intros H. pose proof H as H'. apply Message_new_Some in H'.
  destruct H' as [_ ->]. unfold Message_copy.
  cbn [Message.iv Message.data].
  rewrite Dec_copy_id, map_throwing_copy. cbn [bind]. exact H.
Qed.

(** X7 on a concrete message. *)
Lemma Message_copy_constructed_witness :
  Message_copy (Message.mk 10 [1; -2; 3; 4; 5; 6; 7])
  = Some (Message.mk 10 [1; -2; 3; 4; 5; 6; 7]).
Proof.
  exact (Message_copy_constructed 10 [1; -2; 3; 4; 5; 6; 7] _ eq_refl).
Defined.

(** X8. [copy()] of a state leaf with a constructed key never throws and
    returns a leaf with the same key coordinates and the same balance,
    negative or not. *)
Theorem StateLeaf_copy_constructed {crypto : MaciCrypto.t}
    (raw : list Z) (k : PubKey.t) (balance : Z) :
  PubKey.new raw = Some k ->
  StateLeaf_copy (StateLeaf.mk k balance) = Some (StateLeaf.mk k balance).
Proof.
  intros Hk. unfold StateLeaf_copy.
  cbn [StateLeaf.pubKey StateLeaf.voiceCreditBalance].
  rewrite (PubKey_copy_new raw k Hk), Dec_copy_id. reflexivity.
Qed.

(** X8 on a concrete leaf. *)
Lemma StateLeaf_copy_constructed_witness :
  StateLeaf_copy (crypto := Sample.crypto) (StateLeaf.mk Sample.someKey 100)
  = Some (StateLeaf.mk Sample.someKey 100).
Proof.
  exact (StateLeaf_copy_constructed (crypto := Sample.crypto)
           [5; 9] Sample.someKey 100 eq_refl).
Defined.

(** ** Keypair *)

Section KeypairFacts.

Lemma strictEq_Some (x y : Z) : strictEq (Some x) (Some y) = (x =? y).
Proof. reflexivity. Qed.

(** On two-coordinate keys the test [equalPubKey] decides equality. *)
Lemma equalPubKey_iff (x1 y1 x2 y2 : Z) :
  (x1 =? x2) && (y1 =? y2) = true <-> PubKey.mk [x1; y1] = PubKey.mk [x2; y2].
Proof.
  rewrite andb_true_iff, !Z.eqb_eq. split.
  - intros [-> ->]. reflexivity.
  - intros H. inversion H. auto.
Qed.

Lemma Keypair_equals_pairs (s1 s2 x1 y1 x2 y2 : Z) :
  Keypair.equals (Keypair.mk (PrivKey.mk s1) (PubKey.mk [x1; y1]))
                 (Keypair.mk (PrivKey.mk s2) (PubKey.mk [x2; y2]))
  = if Bool.eqb (s1 =? s2) ((x1 =? x2) && (y1 =? y2))
    then Some (s1 =? s2) else None.
Proof.
  unfold Keypair.equals.
  cbn [Keypair.privKey Keypair.pubKey PrivKey.rawPrivKey PubKey.rawPubKey
       nth_error strictEq].
  destruct (s1 =? s2), ((x1 =? x2) && (y1 =? y2)); reflexivity.
Qed.

End KeypairFacts.

(** X9. On keypairs whose public keys have two coordinates,
    [Keypair.equals] returns [true] when both the private and the public
    keys are equal, [false] when both differ, and throws (the assertion
    fails) when exactly one of the two is equal. *)
Theorem Keypair_equals_outcome (a b : Keypair.t) :
  (exists x y, PubKey.rawPubKey (Keypair.pubKey a) = [x; y]) ->
  (exists x y, PubKey.rawPubKey (Keypair.pubKey b) = [x; y]) ->
  (Keypair.equals a b = Some true <->
     Keypair.privKey a = Keypair.privKey b /\
     Keypair.pubKey a = Keypair.pubKey b) /\
  (Keypair.equals a b = Some false <->
     Keypair.privKey a <> Keypair.privKey b /\
     Keypair.pubKey a <> Keypair.pubKey b) /\
  (Keypair.equals a b = None <->
     (Keypair.privKey a = Keypair.privKey b /\
      Keypair.pubKey a <> Keypair.pubKey b) \/
     (Keypair.privKey a <> Keypair.privKey b /\
      Keypair.pubKey a = Keypair.pubKey b)).
Proof.
  destruct a as [[s1] [ra]], b as [[s2] [rb]].
  cbn [Keypair.pubKey Keypair.privKey PubKey.rawPubKey].
  intros (x1 & y1 & ->) (x2 & y2 & ->).
  rewrite Keypair_equals_pairs.
  pose proof (equalPubKey_iff x1 y1 x2 y2) as Hpk.
  assert (Hsk : (s1 =? s2) = true <-> PrivKey.mk s1 = PrivKey.mk s2).
  { rewrite Z.eqb_eq. split; [intros ->; reflexivity | intros H; inversion H; auto]. }
  destruct (s1 =? s2), ((x1 =? x2) && (y1 =? y2)); cbn [Bool.eqb].
  - assert (p : PrivKey.mk s1 = PrivKey.mk s2) by (apply Hsk; reflexivity).
    assert (q : PubKey.mk [x1; y1] = PubKey.mk [x2; y2])
      by (apply Hpk; reflexivity).
    intuition (try reflexivity; try discriminate; try congruence).
  - assert (p : PrivKey.mk s1 = PrivKey.mk s2) by (apply Hsk; reflexivity).
    assert (q : PubKey.mk [x1; y1] <> PubKey.mk [x2; y2])
      by (intros q; apply Hpk in q; discriminate).
    intuition (try reflexivity; try discriminate; try congruence).
  - assert (p : PrivKey.mk s1 <> PrivKey.mk s2)
      by (intros p; apply Hsk in p; discriminate).
    assert (q : PubKey.mk [x1; y1] = PubKey.mk [x2; y2])
      by (apply Hpk; reflexivity).
    intuition (try reflexivity; try discriminate; try congruence).
  - assert (p : PrivKey.mk s1 <> PrivKey.mk s2)
      by (intros p; apply Hsk in p; discriminate).
    assert (q : PubKey.mk [x1; y1] <> PubKey.mk [x2; y2])
      by (intros q; apply Hpk in q; discriminate).
    intuition (try reflexivity; try discriminate; try congruence).
Qed.

(** X9 on a pair of keypairs sharing the public key only. *)
Lemma Keypair_equals_outcome_witness :
  Keypair.equals (Keypair.mk (PrivKey.mk 3) Sample.someKey)
                 (Keypair.mk (PrivKey.mk 4) Sample.someKey) = None.
Proof.
  destruct (Keypair_equals_outcome
              (Keypair.mk (PrivKey.mk 3) Sample.someKey)
              (Keypair.mk (PrivKey.mk 4) Sample.someKey)) as [_ [_ H]].
  - exists 5, 9. reflexivity.
  - exists 5, 9. reflexivity.
  - apply H. right. split; [discriminate | reflexivity].
Defined.

(** X10. For keypairs built by the constructor from private keys,
    [equals] returns [true] when the private keys are equal, and throws
    exactly when two different private keys have the same public key;
    [copy()] of such a keypair never throws and is [equals] to it. *)
Theorem Keypair_new_equals_copy {crypto : MaciCrypto.t} {keys : MaciKeys.t}
    (sk1 sk2 : PrivKey.t) (a b : Keypair.t) :
  Keypair.new sk1 = Some a ->
  Keypair.new sk2 = Some b ->
  (sk1 = sk2 -> Keypair.equals a b = Some true) /\
  (Keypair.equals a b = None <->
     sk1 <> sk2 /\
     MaciKeys.genPubKey (PrivKey.rawPrivKey sk1)
       = MaciKeys.genPubKey (PrivKey.rawPrivKey sk2)) /\
  Keypair.copy a = Some a /\
  bind (Keypair.copy a) (Keypair.equals a) = Some true.
Proof.
  unfold Keypair.new. intros Ha Hb. peel Ha. peel Hb.
  inversion Ha; subst a. inversion Hb; subst b. clear Ha Hb.
  pose proof Ha0 as Ia. pose proof Ha1 as Ib.
  apply PubKey_new_inv in Ia, Ib.
  destruct Ia as [-> (x1 & y1 & E1 & _ & _)].
  destruct Ib as [-> (x2 & y2 & E2 & _ & _)].
  destruct sk1 as [s1], sk2 as [s2]. cbn [PrivKey.rawPrivKey] in *.
  rewrite E1, E2 in *.
  assert (Hself : Keypair.equals
                    (Keypair.mk (PrivKey.mk s1) (PubKey.mk [x1; y1]))
                    (Keypair.mk (PrivKey.mk s1) (PubKey.mk [x1; y1]))
                  = Some true).
  { rewrite Keypair_equals_pairs, !Z.eqb_refl. reflexivity. }
  assert (Hcopy : Keypair.copy (Keypair.mk (PrivKey.mk s1) (PubKey.mk [x1; y1]))
                  = Some (Keypair.mk (PrivKey.mk s1) (PubKey.mk [x1; y1]))).
  { unfold Keypair.copy, PrivKey_copy, Keypair.new.
    cbn [Keypair.privKey PrivKey.rawPrivKey]. rewrite Dec_copy_id.
    cbn [bind PrivKey.rawPrivKey]. rewrite E1, Ha0. reflexivity. }
  split; [| split; [| split]].
  - intros H. inversion H; subst s2. rewrite E1 in E2. inversion E2; subst.
    exact Hself.
  - rewrite Keypair_equals_pairs. split.
    + destruct (Z.eqb_spec s1 s2) as [-> | Hs].
      * rewrite E1 in E2. inversion E2; subst. rewrite !Z.eqb_refl.
        discriminate.
      * destruct ((x1 =? x2) && (y1 =? y2)) eqn:E; [| discriminate].
        intros _. apply andb_true_iff in E. rewrite !Z.eqb_eq in E.
        destruct E as [-> ->]. split; [congruence | reflexivity].
    + intros [Hs E]. inversion E; subst.
      destruct (Z.eqb_spec s1 s2) as [-> | _]; [congruence |].
      rewrite !Z.eqb_refl. reflexivity.
  - exact Hcopy.
  - rewrite Hcopy. exact Hself.
Qed.

(** X10 on two private keys that the sample [genPubKey] sends to the
    same point. *)
Lemma Keypair_new_equals_copy_witness :
  exists a b,
    Keypair.new (crypto := Sample.crypto) (keys := SampleKeys.keys)
      (PrivKey.mk 3) = Some a /\
    Keypair.new (crypto := Sample.crypto) (keys := SampleKeys.keys)
      (PrivKey.mk (3 + 251 * 251)) = Some b /\
    Keypair.equals a b = None /\
    Keypair.copy (crypto := Sample.crypto) (keys := SampleKeys.keys) a = Some a.
Proof.
  eexists. eexists. split; [reflexivity |]. split; [reflexivity |].
  destruct (Keypair_new_equals_copy
              (crypto := Sample.crypto) (keys := SampleKeys.keys)
              (PrivKey.mk 3) (PrivKey.mk (3 + 251 * 251)) _ _ eq_refl eq_refl)
    as [_ [H [Hc _]]].
  split; [| exact Hc].
  apply H. split; [discriminate | reflexivity].
Defined.

(** ** Command: what [decrypt] returns *)

Section DecryptFacts.
Context {crypto : MaciCrypto.t}.

Lemma extract_range (val pos : Z) :
  0 <= pos -> Command.fits50 (Command.extract val pos).
Proof.
  intros Hpos. unfold Command.fits50.
  rewrite extract_extract_spec, extract_spec_div_mod by exact Hpos.
  apply Z.mod_pos_bound. lia.
Qed.

Lemma Command_new_extracted (p : Z) (k : PubKey.t) (salt : Z) :
  Command.new (Command.extract p 0) k (Command.extract p 50)
    (Command.extract p 100) (Command.extract p 150) (Command.extract p 200) salt
  = Some (Command.mk (Command.extract p 0) k (Command.extract p 50)
            (Command.extract p 100) (Command.extract p 150)
            (Command.extract p 200) salt).
Proof.
  apply Command_new_Some_iff. split; [| reflexivity].
  pose proof (extract_range p 0). pose proof (extract_range p 50).
  pose proof (extract_range p 100). pose proof (extract_range p 150).
  pose proof (extract_range p 200). unfold Command.fits50 in *. lia.
Qed.

End DecryptFacts.

(** X11. Whatever the message and the key, a command that [decrypt]
    returns has its five bounded fields in [0, 2^50) and a public key of
    two coordinates below [SNARK_FIELD_SIZE]. *)
Theorem Command_decrypt_in_range {crypto : MaciCrypto.t}
    (message : Message.t) (sharedKey : MaciCrypto.EcdhSharedKey)
    (c : Command.t) (signature : Signature.t) :
  Command.decrypt message sharedKey = Some (c, signature) ->
  Command.fits50 (Command.stateIndex c) /\
  Command.fits50 (Command.voteOptionIndex c) /\
  Command.fits50 (Command.newVoteWeight c) /\
  Command.fits50 (Command.nonce c) /\
  Command.fits50 (Command.pollId c) /\
  exists x y, PubKey.rawPubKey (Command.newPubKey c) = [x; y] /\
    x < MaciCrypto.SNARK_FIELD_SIZE /\ y < MaciCrypto.SNARK_FIELD_SIZE.
Proof.
  unfold Command.decrypt. cbv zeta. intros H.
  peel H. peel H. peel H. peel H. peel H. peel H.
  rewrite Command_new_extracted in Ha4. inversion Ha4; subst a4.
  peel H. peel H. peel H. inversion H; subst c signature.
  cbn [Command.stateIndex Command.voteOptionIndex Command.newVoteWeight
       Command.nonce Command.pollId Command.newPubKey].
  repeat (split; [apply extract_range; lia |]).
  apply PubKey_new_inv in Ha2. destruct Ha2 as [-> (x & y & E & Hx & Hy)].
  inversion E; subst. exists x, y. auto.
Qed.

(** X11 on a message whose first element decrypts to a negative
    number. *)
Lemma Command_decrypt_in_range_witness :
  exists c signature,
    Command.decrypt (crypto := Sample.crypto)
      (Message.mk 0 [999; 1005; 1009; 1077; 1003; 1004; 1005]) 1000
      = Some (c, signature) /\
    Command.fits50 (Command.stateIndex c).
Proof.
  eexists. eexists. split; [reflexivity |].
  eapply (Command_decrypt_in_range (crypto := Sample.crypto)
            (Message.mk 0 [999; 1005; 1009; 1077; 1003; 1004; 1005]) 1000).
  reflexivity.
Defined.

(** X12. When the cipher gives back seven elements
    [[p, x, y, salt, r0, r1, s]], [decrypt] succeeds exactly when [x] and
    [y] are below [SNARK_FIELD_SIZE]; no value of [p] makes it throw, and
    the result carries the five reads of [p], the key [[x, y]], [salt]
    and the signature [{R8: [r0, r1], S: s}]. *)
Theorem Command_decrypt_seven_outcome {crypto : MaciCrypto.t}
    (message : Message.t) (sharedKey : MaciCrypto.EcdhSharedKey)
    (p x y salt r0 r1 s : Z) :
  MaciCrypto.decrypt (Message.asCiphertext message) sharedKey
    = [p; x; y; salt; r0; r1; s] ->
  Command.decrypt message sharedKey
  = if (x <? MaciCrypto.SNARK_FIELD_SIZE) && (y <? MaciCrypto.SNARK_FIELD_SIZE)
    then Some (Command.mk (Command.extract p 0) (PubKey.mk [x; y])
                 (Command.extract p 50) (Command.extract p 100)
                 (Command.extract p 150) (Command.extract p 200) salt,
               Signature.mk (r0, r1) s)
    else None.
Proof.
  intros H. rewrite (Command_decrypt_seven _ _ _ _ _ _ _ _ _ H).
  unfold PubKey.new. cbn [List.length Nat.eqb assert bind nth_error js_lt].
  destruct (x <? MaciCrypto.SNARK_FIELD_SIZE); [| reflexivity].
  destruct (y <? MaciCrypto.SNARK_FIELD_SIZE); [| reflexivity].
  cbn [assert bind andb]. rewrite Command_new_extracted. reflexivity.
Qed.

(** X12 on a message whose second coordinate is the modulus. *)
Lemma Command_decrypt_seven_outcome_witness :
  Command.decrypt (crypto := Sample.crypto)
    (Message.mk 0 [1001; 1005; Sample.field_size + 1000; 1077; 3; 4; 5]) 1000
  = None.
Proof.
  exact (Command_decrypt_seven_outcome (crypto := Sample.crypto)
           (Message.mk 0 [1001; 1005; Sample.field_size + 1000; 1077; 3; 4; 5])
           1000 1 5 Sample.field_size 77 (-997) (-996) (-995) eq_refl).
Defined.

(** X13. Packing the five reads of any value [p] again gives
    [p mod 2^250]: on 250-bit values the reads of [decrypt] and the
    packing of [asArray] are inverse in this direction too, and bits
    from 250 up, or a sign, are dropped. *)
Theorem Command_pack_extract (p : Z) :
  Command.pack (Command.extract p 0) (Command.extract p 50)
    (Command.extract p 100) (Command.extract p 150) (Command.extract p 200)
  = p mod 2 ^ 250.
Proof.
  rewrite pack_arith.
  rewrite !extract_extract_spec, !extract_spec_div_mod by lia.
  change (2 ^ 0) with 1. rewrite Z.div_1_r.
  change (2 ^ 200) with (2 ^ 50 * 2 ^ 50 * 2 ^ 50 * 2 ^ 50).
  change (2 ^ 150) with (2 ^ 50 * 2 ^ 50 * 2 ^ 50).
  change (2 ^ 100) with (2 ^ 50 * 2 ^ 50).
  rewrite <- !Z.div_div by lia.
  set (q1 := p / 2 ^ 50). set (q2 := q1 / 2 ^ 50).
  set (q3 := q2 / 2 ^ 50). set (q4 := q3 / 2 ^ 50).
  rewrite (Z.mod_eq p (2 ^ 250)) by lia.
  replace (p / 2 ^ 250) with (q4 / 2 ^ 50).
  2:{ unfold q4, q3, q2, q1. rewrite !Z.div_div by lia. reflexivity. }
  rewrite (Z.mod_eq p (2 ^ 50)), (Z.mod_eq q1 (2 ^ 50)), (Z.mod_eq q2 (2 ^ 50)),
          (Z.mod_eq q3 (2 ^ 50)), (Z.mod_eq q4 (2 ^ 50)) by lia.
  fold q1 q2 q3 q4.
  change (2 ^ 250) with (2 ^ 50 * (2 ^ 50 * (2 ^ 50 * (2 ^ 50 * 2 ^ 50)))).
  ring.
Qed.

(** X14. [Command.equals] is [true] exactly when the two commands agree
    on [stateIndex], [voteOptionIndex], [newVoteWeight], [nonce],
    [pollId] and [salt]; a difference in any of these gives [false]. *)
Theorem Command_equals_iff (c1 c2 : Command.t) :
  Command.equals c1 c2 = true <->
  Command.stateIndex c1 = Command.stateIndex c2 /\
  Command.voteOptionIndex c1 = Command.voteOptionIndex c2 /\
  Command.newVoteWeight c1 = Command.newVoteWeight c2 /\
  Command.nonce c1 = Command.nonce c2 /\
  Command.pollId c1 = Command.pollId c2 /\
  Command.salt c1 = Command.salt c2.
Proof.
  unfold Command.equals.
  change (PubKey.get (Command.newPubKey c1) "0") with JsUndefined.
  change (PubKey.get (Command.newPubKey c2) "0") with JsUndefined.
  change (PubKey.get (Command.newPubKey c1) "1") with JsUndefined.
  change (PubKey.get (Command.newPubKey c2) "1") with JsUndefined.
  cbn [looseEq]. rewrite !andb_true_r, !andb_true_iff, !Z.eqb_eq. tauto.
Qed.

(** ** The command of the state-tree circuit test *)

(** X15. The six-argument call of the circuit test puts its salt in
    [pollId]: the construction succeeds exactly when that salt is at
    most [2^50], and the command then carries the default salt. *)
Theorem UpdateStateTreeTest_command_outcome
    (userPubKey : PubKey.t) (salt defaultSalt : Z) (c : Command.t) :
  UpdateStateTreeTest.command userPubKey salt defaultSalt = Some c <->
  salt <= 2 ^ 50 /\
  c = Command.mk 1 userPubKey 0 9 1 salt defaultSalt.
Proof.
  unfold UpdateStateTreeTest.command. cbv zeta.
  rewrite Command_new_Some_iff. intuition lia.
Qed.

(** ** StateLeaf with a negative balance *)

(** X16. A leaf with a negative balance serialises, but [unserialize]
    throws on the result: the balance prints in hexadecimal with a minus
    sign, which [BigInt('0x' + ...)] rejects. The key is a constructed
    one that [serialize] can take back, and the codecs undo each other
    on the leaf's object. *)
Theorem StateLeaf_negative_balance_throws
    {crypto : MaciCrypto.t} {codecs : Codecs}
    (raw : list Z) (k : PubKey.t) (balance : Z) :
  PubKey.new raw = Some k ->
  (raw <> [0; 0] ->
   MaciCrypto.unpackPubKey (MaciCrypto.packPubKey raw) = Some raw) ->
  balance < 0 ->
  (forall ks, PubKey.serialize k = Some ks ->
     codecs_invert_on (StateLeaf.json ks (Hex.toString16 balance))) ->
  exists s, StateLeaf.serialize (StateLeaf.mk k balance) = Some s /\
    StateLeaf.unserialize s = None.
Proof.
  intros Hk Hpack Hbal Hcodecs.
  destruct (PubKey_roundtrip raw k Hk Hpack) as [ks [Hs Hu]].
  destruct (Hcodecs ks Hs) as [Hjson Hb64].
  eexists. split.
  - unfold StateLeaf.serialize.
    cbn [StateLeaf.pubKey StateLeaf.voiceCreditBalance].
    rewrite Hs. reflexivity.
  - unfold StateLeaf.unserialize. rewrite Hb64, Hjson. cbn [bind].
    change (Json_get_string (StateLeaf.json ks (Hex.toString16 balance)) "pubKey")
      with (Some ks).
    cbn [bind]. rewrite Hu. cbn [bind].
    change (Json_get_string (StateLeaf.json ks (Hex.toString16 balance))
              "voiceCreditBalance")
      with (Some (Hex.toString16 balance)).
    cbn [bind]. rewrite (BigInt_0x_toString16_neg balance Hbal). reflexivity.
Qed.

(** X16 on a leaf with balance [-255]. *)
Lemma StateLeaf_negative_balance_throws_witness :
  bind (StateLeaf.serialize (crypto := Sample.crypto) (codecs := Sample.codecs)
          (StateLeaf.mk Sample.someKey (-255)))
       (StateLeaf.unserialize (crypto := Sample.crypto) (codecs := Sample.codecs))
  = None.
Proof.
  destruct (StateLeaf_negative_balance_throws
              (crypto := Sample.crypto) (codecs := Sample.codecs)
              [5; 9] Sample.someKey (-255) eq_refl)
    as (s & Hs & Hu).
  - intros _. reflexivity.
  - lia.
  - intros ks H. inversion H; subst ks. split; reflexivity.
  - rewrite Hs. exact Hu.
Defined.

(** ** VerifyingKey *)

Section VerifyingKeyFacts.
Context {points : Points.t}.

(** The loop over the indices from [length pre1] on. *)
Lemma ic_loop (this vk : VerifyingKey.t) :
  forall (l1 l2 pre1 pre2 : list Points.G1Point) (b : bool),
    VerifyingKey.ic this = (pre1 ++ l1)%list ->
    VerifyingKey.ic vk = (pre2 ++ l2)%list ->
    List.length pre1 = List.length pre2 ->
    List.length l1 = List.length l2 ->
    fold_left (VerifyingKey.ic_step this vk)
      (seq (List.length pre1) (List.length l1)) (Some b)
    = Some (b && forallb (fun pq => Points.G1_equals (fst pq) (snd pq))
                         (combine l1 l2)).
Proof.
  induction l1 as [|p l1 IH]; intros [|q l2] pre1 pre2 b E1 E2 Lpre L;
    simpl in L; try discriminate.
  - simpl. rewrite andb_true_r. reflexivity.
  - cbn [List.length seq fold_left combine forallb fst snd].
    assert (S1 : VerifyingKey.ic_step this vk (Some b) (List.length pre1)
                 = Some (b && Points.G1_equals p q)).
    { unfold VerifyingKey.ic_step. cbn [bind]. destruct b; [| reflexivity].
      rewrite E1, E2, nth_error_app2, Nat.sub_diag by lia.
      rewrite Lpre, nth_error_app2, Nat.sub_diag by lia. reflexivity. }
    rewrite S1.
    replace (S (List.length pre1)) with (List.length (pre1 ++ [p])%list)
      by (rewrite length_app; simpl; lia).
    rewrite (IH l2 (pre1 ++ [p])%list (pre2 ++ [q])%list).
    + rewrite andb_assoc. reflexivity.
    + rewrite E1, <- app_assoc. reflexivity.
    + rewrite E2, <- app_assoc. reflexivity.
    + rewrite !length_app. simpl. lia.
    + lia.
Qed.

Lemma forallb_combine_Forall2 {A B} (f : A -> B -> bool) (l1 : list A) (l2 : list B) :
  List.length l1 = List.length l2 ->
  (forallb (fun pq => f (fst pq) (snd pq)) (combine l1 l2) = true <->
   Forall2 (fun a b => f a b = true) l1 l2).
Proof.
  revert l2; induction l1 as [|a l1 IH]; intros [|b l2] L; simpl in L;
    try discriminate.
  - simpl. split; [constructor | reflexivity].
  - cbn [combine forallb fst snd]. rewrite andb_true_iff, IH by lia. split.
    + intros [H1 H2]. constructor; assumption.
    + intros H. inversion H; subst. auto.
Qed.

End VerifyingKeyFacts.

(** X17. [VerifyingKey.equals] always returns: [false] when the two [ic]
    arrays differ in length, and otherwise [true] exactly when [alpha1],
    [beta2], [gamma2], [delta2] and every pair of [ic] elements at the
    same index are [equals]. *)
Theorem VerifyingKey_equals_iff {points : Points.t} (this vk : VerifyingKey.t) :
  exists r, VerifyingKey.equals this vk = Some r /\
    (List.length (VerifyingKey.ic this) <> List.length (VerifyingKey.ic vk) ->
     r = false) /\
    (r = true <->
     Points.G1_equals (VerifyingKey.alpha1 this) (VerifyingKey.alpha1 vk) = true /\
     Points.G2_equals (VerifyingKey.beta2 this) (VerifyingKey.beta2 vk) = true /\
     Points.G2_equals (VerifyingKey.gamma2 this) (VerifyingKey.gamma2 vk) = true /\
     Points.G2_equals (VerifyingKey.delta2 this) (VerifyingKey.delta2 vk) = true /\
     Forall2 (fun p q => Points.G1_equals p q = true)
             (VerifyingKey.ic this) (VerifyingKey.ic vk)).
Proof.
  unfold VerifyingKey.equals. cbv zeta.
  destruct (Nat.eqb_spec (List.length (VerifyingKey.ic this))
                         (List.length (VerifyingKey.ic vk))) as [L | NL];
    cbn [negb].
  - pose proof (ic_loop this vk (VerifyingKey.ic this) (VerifyingKey.ic vk)
                  [] [] true eq_refl eq_refl eq_refl L) as Hloop.
    cbn [List.length] in Hloop. rewrite Hloop.
    cbn [bind andb]. eexists. split; [reflexivity |]. split; [contradiction |].
    rewrite !andb_true_iff, (forallb_combine_Forall2 _ _ _ L). tauto.
  - exists false. split; [reflexivity |]. split; [reflexivity |].
    split; [discriminate |]. intros (_ & _ & _ & _ & F).
    apply Forall2_length in F. contradiction.
Qed.

(** X17 on two keys whose [ic] differ in the last element, and in
    length. *)
Lemma VerifyingKey_equals_iff_witness :
  VerifyingKey.equals (SampleKeys.vk [8; 9]) (SampleKeys.vk [8; 10]) = Some false /\
  VerifyingKey.equals (SampleKeys.vk [8; 9]) (SampleKeys.vk [8]) = Some false.
Proof.
  split.
  - destruct (VerifyingKey_equals_iff (SampleKeys.vk [8; 9]) (SampleKeys.vk [8; 10]))
      as (r & Hr & _ & _).
    rewrite Hr. vm_compute in Hr. symmetry. exact Hr.
  - destruct (VerifyingKey_equals_iff (SampleKeys.vk [8; 9]) (SampleKeys.vk [8]))
      as (r & Hr & Hl & _).
    rewrite Hr. f_equal. apply Hl. simpl. discriminate.
Defined.

(** ** The reference roots of the quad Merkle tree test *)

Section QuadTreeFacts.
Context {crypto : MaciCrypto.t}.

Lemma group_at (pre rest : list Z) (a b c d e : Z) (i : nat) :
  List.length pre = (i * 5)%nat ->
  QuadTreeTest.group (pre ++ a :: b :: c :: d :: e :: rest) i
  = Some [a; b; c; d; e].
Proof.
  intros L. unfold QuadTreeTest.group, QuadTreeTest.LEAVES_PER_NODE.
  cbn [seq map_throwing].
  rewrite !nth_error_app2 by lia.
  replace (i * 5 + 0 - List.length pre)%nat with 0%nat by lia.
  replace (i * 5 + 1 - List.length pre)%nat with 1%nat by lia.
  replace (i * 5 + 2 - List.length pre)%nat with 2%nat by lia.
  replace (i * 5 + 3 - List.length pre)%nat with 3%nat by lia.
  replace (i * 5 + 4 - List.length pre)%nat with 4%nat by lia.
  reflexivity.
Qed.

Lemma length_5n_inv (n : nat) (l : list Z) :
  List.length l = (S n * 5)%nat ->
  exists a b c d e l', l = a :: b :: c :: d :: e :: l' /\
    List.length l' = (n * 5)%nat.
Proof.
  destruct l as [|a [|b [|c [|d [|e l']]]]]; simpl; intros H; try lia.
  exists a, b, c, d, e, l'. split; [reflexivity | lia].
Qed.

(** The outer loop of [computeRootFromLeaves] on full groups. *)
Lemma hash_groups_level_up (n : nat) :
  forall (i : nat) (pre rest : list Z),
    List.length pre = (i * 5)%nat ->
    List.length rest = (n * 5)%nat ->
    QuadTreeTest.hash_groups n i (pre ++ rest)
    = Some (QuadTreeTest.level_up n rest).
Proof.
  induction n as [|n IH]; intros i pre rest Lp Lr; [reflexivity |].
  destruct (length_5n_inv n rest Lr) as (a & b & c & d & e & rest' & -> & Lr').
  cbn [QuadTreeTest.hash_groups]. rewrite group_at by exact Lp. cbn [bind].
  replace (pre ++ a :: b :: c :: d :: e :: rest')%list
    with ((pre ++ [a; b; c; d; e]) ++ rest')%list
    by (rewrite <- app_assoc; reflexivity).
  rewrite (IH (S i)).
  - reflexivity.
  - rewrite length_app. simpl. lia.
  - exact Lr'.
Qed.

Lemma level_up_length (n : nat) (l : list Z) :
  List.length (QuadTreeTest.level_up n l) = n.
Proof. revert l; induction n as [|n IH]; intros l; simpl; [| rewrite IH]; reflexivity. Qed.

Lemma level_up_app (n1 n2 : nat) :
  forall l1 l2 : list Z,
    List.length l1 = (n1 * 5)%nat ->
    QuadTreeTest.level_up (n1 + n2) (l1 ++ l2)
    = (QuadTreeTest.level_up n1 l1 ++ QuadTreeTest.level_up n2 l2)%list.
Proof.
  induction n1 as [|n1 IH]; intros l1 l2 L.
  - destruct l1; [reflexivity | discriminate].
  - destruct (length_5n_inv n1 l1 L) as (a & b & c & d & e & l1' & -> & L').
    cbn [Nat.add QuadTreeTest.level_up QuadTreeTest.LEAVES_PER_NODE
         firstn skipn app].
    rewrite IH by exact L'. reflexivity.
Qed.

Lemma level_up_repeat (n : nat) (z : Z) :
  QuadTreeTest.level_up n (repeat z (n * 5))
  = repeat (MaciCrypto.hash5 (repeat z 5)) n.
Proof.
  induction n as [|n IH]; [reflexivity |].
  cbn [Nat.mul Nat.add repeat QuadTreeTest.level_up
       QuadTreeTest.LEAVES_PER_NODE firstn skipn].
  rewrite IH. reflexivity.
Qed.

(** One call on [n] full groups goes on with their [n] hashes. *)
Lemma computeRootFromLeaves_step (fuel n : nat) (leaves : list Z) :
  List.length leaves = (n * 5)%nat ->
  QuadTreeTest.computeRootFromLeaves (S fuel) leaves
  = QuadTreeTest.computeRootFromLeaves fuel (QuadTreeTest.level_up n leaves).
Proof.
  intros L. cbn [QuadTreeTest.computeRootFromLeaves].
  unfold QuadTreeTest.LEAVES_PER_NODE. rewrite L.
  destruct (Nat.eqb_spec (n * 5) 1) as [E | _]; [lia |].
  rewrite Nat.Div0.mod_mul, Nat.div_mul by lia. cbn [Nat.eqb negb].
  pose proof (hash_groups_level_up n 0 [] leaves eq_refl L) as Hh.
  cbn [app] in Hh. rewrite Hh. reflexivity.
Qed.

Lemma computeRootFromLeaves_single (fuel : nat) (x : Z) :
  QuadTreeTest.computeRootFromLeaves (S fuel) [x] = QuadTreeTest.Returned x.
Proof. reflexivity. Qed.

Lemma computeRootFromLeaves_nil (fuel : nat) :
  QuadTreeTest.computeRootFromLeaves fuel [] = QuadTreeTest.OutOfFuel.
Proof.
  induction fuel as [|fuel IH]; [reflexivity |].
  rewrite (computeRootFromLeaves_step fuel 0 [] eq_refl). exact IH.
Qed.

Lemma computeRootFromLeaves_returned (fuel : nat) :
  forall (leaves : list Z) (v : Z),
    QuadTreeTest.computeRootFromLeaves fuel leaves = QuadTreeTest.Returned v ->
    exists d, List.length leaves = (5 ^ d)%nat /\ (d < fuel)%nat.
Proof.
  induction fuel as [|fuel IH]; intros leaves v H; [discriminate |].
  destruct (Nat.eq_dec (List.length leaves) 1) as [E | NE].
  - exists 0%nat. split; [exact E | lia].
  - destruct (Nat.eq_dec (List.length leaves mod 5) 0) as [M | NM].
    + apply Nat.Div0.div_exact in M.
      set (n := (List.length leaves / 5)%nat) in *.
      rewrite (computeRootFromLeaves_step fuel n leaves) in H by lia.
      apply IH in H. destruct H as (d & Hd & Hlt).
      rewrite level_up_length in Hd.
      exists (S d). split; [| lia]. rewrite Nat.pow_succ_r', <- Hd. lia.
    + cbn [QuadTreeTest.computeRootFromLeaves] in H.
      unfold QuadTreeTest.LEAVES_PER_NODE in H.
      destruct (Nat.eqb_spec (List.length leaves) 1) as [E | _]; [contradiction |].
      destruct (Nat.eqb_spec (List.length leaves mod 5) 0) as [E | _];
        [contradiction | discriminate].
Qed.

Lemma computeRootFromLeaves_power (d : nat) :
  forall (leaves : list Z) (fuel : nat),
    List.length leaves = (5 ^ d)%nat -> (d < fuel)%nat ->
    exists v, QuadTreeTest.computeRootFromLeaves fuel leaves
              = QuadTreeTest.Returned v.
Proof.
  induction d as [|d IH]; intros leaves fuel L Hf;
    (destruct fuel as [|fuel]; [lia |]).
  - destruct leaves as [|x [|y l]]; simpl in L; try discriminate.
    exists x. reflexivity.
  - rewrite (computeRootFromLeaves_step fuel (5 ^ d) leaves)
      by (rewrite L, Nat.pow_succ_r'; lia).
    apply IH; [apply level_up_length | lia].
Qed.

(** X19. The root of five adjacent subtrees of the same height is the
    hash of their five roots, in order: if [computeRootFromLeaves]
    returns [r1] to [r5] on five lists of [5^d] leaves, it returns
    [hash5([r1, r2, r3, r4, r5])] on their concatenation, one level of
    recursion deeper. *)
Theorem computeRootFromLeaves_five (d : nat) :
  forall (fuel : nat) (l1 l2 l3 l4 l5 : list Z) (r1 r2 r3 r4 r5 : Z),
    List.length l1 = (5 ^ d)%nat -> List.length l2 = (5 ^ d)%nat ->
    List.length l3 = (5 ^ d)%nat -> List.length l4 = (5 ^ d)%nat ->
    List.length l5 = (5 ^ d)%nat ->
    QuadTreeTest.computeRootFromLeaves fuel l1 = QuadTreeTest.Returned r1 ->
    QuadTreeTest.computeRootFromLeaves fuel l2 = QuadTreeTest.Returned r2 ->
    QuadTreeTest.computeRootFromLeaves fuel l3 = QuadTreeTest.Returned r3 ->
    QuadTreeTest.computeRootFromLeaves fuel l4 = QuadTreeTest.Returned r4 ->
    QuadTreeTest.computeRootFromLeaves fuel l5 = QuadTreeTest.Returned r5 ->
    QuadTreeTest.computeRootFromLeaves (S fuel) (l1 ++ l2 ++ l3 ++ l4 ++ l5)
    = QuadTreeTest.Returned (MaciCrypto.hash5 [r1; r2; r3; r4; r5]).
Proof.
  induction d as [|d IH];
    intros fuel l1 l2 l3 l4 l5 r1 r2 r3 r4 r5 L1 L2 L3 L4 L5 H1 H2 H3 H4 H5;
    (destruct fuel as [|fuel]; [discriminate |]).
  - destruct l1 as [|x1 [|? ?]]; try discriminate.
    destruct l2 as [|x2 [|? ?]]; try discriminate.
    destruct l3 as [|x3 [|? ?]]; try discriminate.
    destruct l4 as [|x4 [|? ?]]; try discriminate.
    destruct l5 as [|x5 [|? ?]]; try discriminate.
    rewrite computeRootFromLeaves_single in H1, H2, H3, H4, H5.
    inversion H1; inversion H2; inversion H3; inversion H4; inversion H5; subst.
    reflexivity.
  - assert (P : (5 ^ S d = 5 ^ d * 5)%nat) by (rewrite Nat.pow_succ_r'; lia).
    rewrite P in L1, L2, L3, L4, L5.
    rewrite (computeRootFromLeaves_step fuel (5 ^ d)) in H1, H2, H3, H4, H5
      by assumption.
    rewrite (computeRootFromLeaves_step (S fuel) (5 * 5 ^ d * 1))
      by (rewrite !length_app; lia).
    replace (5 * 5 ^ d * 1)%nat
      with (5 ^ d + (5 ^ d + (5 ^ d + (5 ^ d + 5 ^ d))))%nat by lia.
    rewrite !level_up_app by assumption.
    apply (IH fuel); try apply level_up_length; assumption.
Qed.

Lemma iterated_root_shift (n : nat) (z : Z) :
  QuadTreeTest.iterated_root (S n) z
  = QuadTreeTest.iterated_root n (MaciCrypto.hash5 (repeat z 5)).
Proof.
  unfold QuadTreeTest.iterated_root, QuadTreeTest.LEAVES_PER_NODE.
  apply Nat.iter_succ_r.
Qed.

Lemma computeRootFromLeaves_repeat (d : nat) :
  forall (fuel : nat) (z : Z), (d < fuel)%nat ->
    QuadTreeTest.computeRootFromLeaves fuel (repeat z (5 ^ d))
    = QuadTreeTest.Returned (QuadTreeTest.iterated_root d z).
Proof.
  induction d as [|d IH]; intros fuel z Hf; (destruct fuel as [|fuel]; [lia |]).
  - reflexivity.
  - assert (P : (5 ^ S d = 5 ^ d * 5)%nat) by (rewrite Nat.pow_succ_r'; lia).
    rewrite P.
    rewrite (computeRootFromLeaves_step fuel (5 ^ d))
      by (rewrite repeat_length; reflexivity).
    rewrite level_up_repeat, IH by lia.
    rewrite iterated_root_shift. reflexivity.
Qed.

(** The array [zeros] after the loop of [computeEmptyRoot]. *)
Lemma zeros_loop_spec (z : Z) (n : nat) :
  forall i : nat, (1 <= i)%nat ->
    QuadTreeTest.zeros_loop n i
      (map (fun j => QuadTreeTest.iterated_root j z) (seq 0 i))
    = Some (map (fun j => QuadTreeTest.iterated_root j z) (seq 0 (i + n))).
Proof.
  induction n as [|n IH]; intros i Hi.
  - rewrite Nat.add_0_r. reflexivity.
  - cbn [QuadTreeTest.zeros_loop].
    assert (N : nth_error (map (fun j => QuadTreeTest.iterated_root j z) (seq 0 i))
                  (i - 1)
                = Some (QuadTreeTest.iterated_root (i - 1) z)).
    { rewrite nth_error_map, nth_error_seq.
      destruct (Nat.ltb_spec (i - 1) i); [reflexivity | lia]. }
    rewrite N. cbn [bind].
    replace (map (fun j => QuadTreeTest.iterated_root j z) (seq 0 i)
             ++ [MaciCrypto.hash5
                   (repeat (QuadTreeTest.iterated_root (i - 1) z)
                           QuadTreeTest.LEAVES_PER_NODE)])%list
      with (map (fun j => QuadTreeTest.iterated_root j z) (seq 0 (S i))).
    + rewrite IH by lia. rewrite Nat.add_succ_r. reflexivity.
    + rewrite seq_S, map_app. cbn [map Nat.add]. do 2 f_equal.
      replace i with (S (i - 1)) at 1 by lia. reflexivity.
Qed.

Lemma computeEmptyRoot_spec (depth zeroValue : Z) :
  QuadTreeTest.computeEmptyRoot depth zeroValue
  = if depth >? 0
    then Some (QuadTreeTest.iterated_root (Z.to_nat depth) zeroValue)
    else None.
Proof.
  unfold QuadTreeTest.computeEmptyRoot.
  destruct (Z.gtb_spec depth 0) as [H | H]; [| reflexivity].
  cbn [assert bind].
  pose proof (zeros_loop_spec zeroValue (Z.to_nat (depth - 1)) 1 (le_n 1)) as Z1.
  change (map (fun j => QuadTreeTest.iterated_root j zeroValue) (seq 0 1))
    with [zeroValue] in Z1.
  rewrite Z1. cbn [bind].
  rewrite nth_error_map, nth_error_seq.
  destruct (Nat.ltb_spec (Z.to_nat (depth - 1)) (1 + Z.to_nat (depth - 1)));
    [| lia].
  cbn [option_map bind Nat.add]. f_equal.
  replace (Z.to_nat depth) with (S (Z.to_nat (depth - 1))) by lia.
  reflexivity.
Qed.

Lemma computeRootFromLeaves_thrown (n : nat) :
  forall leaves : list Z,
    List.length leaves = n -> n <> 0%nat ->
    (forall d, n <> (5 ^ d)%nat) ->
    exists fuel, QuadTreeTest.computeRootFromLeaves fuel leaves
                 = QuadTreeTest.Thrown.
Proof.
  induction n as [n IH] using lt_wf_ind. intros leaves L Hn Hp.
  assert (N1 : List.length leaves <> 1%nat)
    by (rewrite L; exact (Hp 0%nat)).
  destruct (Nat.eq_dec (n mod 5) 0) as [M | NM].
  - apply Nat.Div0.div_exact in M. set (m := (n / 5)%nat) in *.
    assert (Lm : List.length leaves = (m * 5)%nat) by lia.
    destruct (IH m) with (leaves := QuadTreeTest.level_up m leaves)
      as [fuel Hf].
    + lia.
    + apply level_up_length.
    + lia.
    + intros d E. apply (Hp (S d)). rewrite Nat.pow_succ_r'. lia.
    + exists (S fuel). rewrite (computeRootFromLeaves_step fuel m leaves Lm).
      exact Hf.
  - exists 1%nat. cbn [QuadTreeTest.computeRootFromLeaves].
    unfold QuadTreeTest.LEAVES_PER_NODE. rewrite L.
    destruct (Nat.eqb_spec n 1) as [E | _]; [lia |].
    destruct (Nat.eqb_spec (n mod 5) 0) as [E | _]; [contradiction | reflexivity].
Qed.

End QuadTreeFacts.

(** X18. [computeRootFromLeaves] returns a value exactly when the number
    of leaves is a power of 5, within one call per level plus one; on
    the empty array the recursion never ends; on any other length an
    assertion fails. *)
Theorem computeRootFromLeaves_outcome {crypto : MaciCrypto.t} (leaves : list Z) :
  ((exists fuel v, QuadTreeTest.computeRootFromLeaves fuel leaves
                   = QuadTreeTest.Returned v) <->
   (exists d, List.length leaves = (5 ^ d)%nat)) /\
  (forall d fuel, List.length leaves = (5 ^ d)%nat -> (d < fuel)%nat ->
     exists v, QuadTreeTest.computeRootFromLeaves fuel leaves
               = QuadTreeTest.Returned v) /\
  (leaves = [] ->
   forall fuel, QuadTreeTest.computeRootFromLeaves fuel leaves
                = QuadTreeTest.OutOfFuel) /\
  (leaves <> [] -> (forall d, List.length leaves <> (5 ^ d)%nat) ->
   exists fuel, QuadTreeTest.computeRootFromLeaves fuel leaves
                = QuadTreeTest.Thrown).
Proof.
  split; [split |split; [| split]].
  - intros (fuel & v & H).
    destruct (computeRootFromLeaves_returned fuel leaves v H) as (d & Hd & _).
    exists d. exact Hd.
  - intros (d & Hd).
    destruct (computeRootFromLeaves_power d leaves (S d) Hd (Nat.lt_succ_diag_r d))
      as [v Hv].
    exists (S d), v. exact Hv.
  - intros d fuel Hd Hf. apply (computeRootFromLeaves_power d); assumption.
  - intros -> fuel. apply computeRootFromLeaves_nil.
  - intros Hne Hp.
    apply (computeRootFromLeaves_thrown (List.length leaves)); auto.
    destruct leaves; [contradiction | discriminate].
Qed.

(** X18 on six leaves, which are not a power of five. *)
Lemma computeRootFromLeaves_outcome_witness :
  exists fuel,
    QuadTreeTest.computeRootFromLeaves (crypto := Sample.crypto) fuel
      [1; 2; 3; 4; 5; 6] = QuadTreeTest.Thrown.
Proof.
  destruct (computeRootFromLeaves_outcome (crypto := Sample.crypto)
              [1; 2; 3; 4; 5; 6]) as (_ & _ & _ & H).
  apply H; [discriminate |].
  intros d E. cbn [List.length] in E.
  destruct d as [|[|d]]; [discriminate E | discriminate E |].
  rewrite !Nat.pow_succ_r' in E. lia.
Defined.

(** X19 on five single leaves, with sums for hashes. *)
Lemma computeRootFromLeaves_five_witness :
  QuadTreeTest.computeRootFromLeaves (crypto := Sample.crypto) 2 [1; 2; 3; 4; 5]
  = QuadTreeTest.Returned 15.
Proof.
  exact (computeRootFromLeaves_five (crypto := Sample.crypto) 0 1
           [1] [2] [3] [4] [5] 1 2 3 4 5
           eq_refl eq_refl eq_refl eq_refl eq_refl
           eq_refl eq_refl eq_refl eq_refl eq_refl).
Defined.

(** X20. On [5^depth] copies of the zero value, [depth >= 1],
    [computeRootFromLeaves] returns the value [computeEmptyRoot(depth,
    zeroValue)] returns: the two reference computations of the empty
    tree's root agree. *)
Theorem computeRootFromLeaves_empty_tree {crypto : MaciCrypto.t}
    (d fuel : nat) (zeroValue : Z) :
  (0 < d)%nat -> (d < fuel)%nat ->
  exists r,
    QuadTreeTest.computeEmptyRoot (Z.of_nat d) zeroValue = Some r /\
    QuadTreeTest.computeRootFromLeaves fuel (repeat zeroValue (5 ^ d))
    = QuadTreeTest.Returned r.
Proof.
  intros Hd Hf. exists (QuadTreeTest.iterated_root d zeroValue). split.
  - rewrite computeEmptyRoot_spec.
    destruct (Z.gtb_spec (Z.of_nat d) 0) as [_ | H]; [| lia].
    rewrite Nat2Z.id. reflexivity.
  - apply computeRootFromLeaves_repeat. exact Hf.
Qed.

(** X20 at depth 2, with sums for hashes. *)
Lemma computeRootFromLeaves_empty_tree_witness :
  QuadTreeTest.computeEmptyRoot (crypto := Sample.crypto) 2 1 = Some 25 /\
  QuadTreeTest.computeRootFromLeaves (crypto := Sample.crypto) 3 (repeat 1 25)
  = QuadTreeTest.Returned 25.
Proof.
  destruct (computeRootFromLeaves_empty_tree (crypto := Sample.crypto) 2 3 1)
    as (r & H1 & H2); try lia.
  assert (E : r = 25) by (vm_compute in H1; inversion H1; reflexivity).
  subst r. split; [exact H1 | exact H2].
Defined.

(** X21. [computeEmptyRoot] throws for a depth of zero or less; at depth
    1 it is the hash of five copies of the zero value, and each further
    level is the hash of five copies of the root one level below. *)
Theorem computeEmptyRoot_levels {crypto : MaciCrypto.t} (depth zeroValue : Z) :
  (depth <= 0 -> QuadTreeTest.computeEmptyRoot depth zeroValue = None) /\
  QuadTreeTest.computeEmptyRoot 1 zeroValue
    = Some (MaciCrypto.hash5 (repeat zeroValue 5)) /\
  (1 <= depth ->
   exists r, QuadTreeTest.computeEmptyRoot depth zeroValue = Some r /\
     QuadTreeTest.computeEmptyRoot (depth + 1) zeroValue
     = Some (MaciCrypto.hash5 (repeat r 5))).
Proof.
  rewrite !computeEmptyRoot_spec. split; [| split].
  - intros H. destruct (Z.gtb_spec depth 0); [lia | reflexivity].
  - reflexivity.
  - intros H. destruct (Z.gtb_spec depth 0); [| lia].
    destruct (Z.gtb_spec (depth + 1) 0); [| lia].
    eexists. split; [reflexivity |]. f_equal.
    replace (Z.to_nat (depth + 1)) with (S (Z.to_nat depth)) by lia.
    reflexivity.
Qed.

(** X21 at depths 0 and 2, with sums for hashes. *)
Lemma computeEmptyRoot_levels_witness :
  QuadTreeTest.computeEmptyRoot (crypto := Sample.crypto) 0 1 = None /\
  QuadTreeTest.computeEmptyRoot (crypto := Sample.crypto) 2 1 = Some 25.
Proof.
  destruct (computeEmptyRoot_levels (crypto := Sample.crypto) 0 1) as (H0 & _ & _).
  destruct (computeEmptyRoot_levels (crypto := Sample.crypto) 1 1) as (_ & _ & H1).
  split; [apply H0; lia |].
  destruct (H1 ltac:(lia)) as (r & Hr & Hn).
  vm_compute in Hr. inversion Hr; subst r. exact Hn.
Defined.

(** ** The predicate and the parse path of private keys *)



